(** * Dominators and dominance frontiers of crab's control-flow graphs

    A shallow embedding of [include/crab/analysis/graphs/dominance.hpp]:
    [dominator_tree], [graph_algo_impl::dominance], [dominance] and
    [post_dominance], together with the graph-theoretic notions the header
    documents (paths from the entry, dominators, strict and immediate
    dominators) and the properties of the computed mappings. *)

From stdpp Require Import gmap strings list fin_maps fin_sets.

(** ** The graph view *)

Section Graphs.
Context {node : Type} `{Countable node}.

(** An edge, with the [source] and [target] accessors of the graph
    interface. *)
Definition edge : Type := node * node.
Definition source (e : edge) : node := e.1.
Definition target (e : edge) : node := e.2.

(** Modelled from the spec: the graph type [G] is a template parameter of
    the header. The view it offers lists the vertices and the edges, each
    in its enumeration order, and names the entry and the optional exit;
    [exit] is meaningful only when [has_exit] holds. *)
Record graph := Graph {
  vertices : list node;
  edges : list edge;
  entry : node;
  has_exit : bool;
  exit : node
}.

(** [in_edges(n, g)] and [out_edges(n, g)], in enumeration order. *)
Definition in_edges (n : node) (g : graph) : list edge :=
  filter (λ e, target e = n) (edges g).

Definition out_edges (n : node) (g : graph) : list edge :=
  filter (λ e, source e = n) (edges g).

(** Modelled from the spec: the class [cfg_rev] is declared outside this
    header. The reversed view keeps the node identities, swaps the source
    and target of every edge and takes the exit of the graph as its
    entry. Its own exit, which the header never reads, is the entry of the
    graph. *)
Definition cfg_rev (g : graph) : graph :=
  {| vertices := vertices g;
     edges := (λ e, (target e, source e)) <$> edges g;
     entry := exit g;
     has_exit := true;
     exit := entry g |}.

(** ** Paths and dominators, as the header's opening comment defines them *)

(** [path_to g e l v]: [l] lists, last node first, the nodes of a path of
    [g] that starts at [e] and ends at [v]. *)
Inductive path_to (g : graph) (e : node) : list node → node → Prop :=
| path_entry : path_to g e [e] e
| path_step l p v :
    path_to g e l p → (p, v) ∈ edges g → path_to g e (v :: l) v.

Definition reachable (g : graph) (e v : node) : Prop :=
  ∃ l, path_to g e l v.

(** A node u dominates v if all paths from entry to v pass through u. *)
Definition dominates (g : graph) (e u v : node) : Prop :=
  ∀ l, path_to g e l v → u ∈ l.

(** A node u strictly dominates v if u dominates v and u != v. *)
Definition strictly_dominates (g : graph) (e u v : node) : Prop :=
  dominates g e u v ∧ u ≠ v.

(** A node u is the immediate dominator of v if u is the unique node that
    strictly dominates v but does not strictly dominate any other node
    that strictly dominates v. *)
Definition immediate_dominator (g : graph) (e u v : node) : Prop :=
  strictly_dominates g e u v ∧
  ∀ k, strictly_dominates g e k v → k ≠ u → ¬ strictly_dominates g e u k.

(** ** The diagnostics sink *)

(** What the header prints under [CRAB_LOG]; node labels are left as
    nodes. *)
Inductive diag :=
| MsgIdom (d v : node)              (* d is the immediate dominator of v *)
| MsgNoDom (v : node)               (* v is not dominated by anyone! *)
| MsgFrontier (k : node) (fr : list node)   (* k={...} *)
| MsgBanner (s : string).

Section Code.
(** [graph_traits<G>::null_vertex()]. *)
Variable null_vertex : node.

(** The tags for which logging is enabled. *)
Variable log_enabled : string → bool.

(** Modelled from the spec: the macro [CRAB_LOG(tag, code)] is defined
    outside this header; it runs [code] when logging is enabled for
    [tag], and the sink is silent by default. *)
Definition CRAB_LOG (tag : string) (out : list diag) : list diag :=
  if log_enabled tag then out else [].

(** Boost's [lengauer_tarjan_dominator_tree], an external routine:
    [lengauer_tarjan_dominator_tree g entry v] is the content of
    [dom_tree_pred_map] at vertex [v] when the routine returns, the
    map having been filled with [null_vertex] before the call. *)
Variable lengauer_tarjan_dominator_tree : graph → node → node → node.

(** [Map::insert]: the pair is added unless the key is present. *)
Definition map_insert (v d : node) (idom : gmap node node) : gmap node node :=
  match idom !! v with
  | Some _ => idom
  | None => <[v := d]> idom
  end.

(** [idom[v]]: a key that is absent reads as the default-constructed node,
    taken to be the sentinel. The map is local to
    [graph_algo_impl::dominance], so the key that [operator[]] would add
    is seen by later reads only, which yield the same node. *)
Definition idom_at (idom : gmap node node) (v : node) : node :=
  default null_vertex (idom !! v).

Definition dominator_tree (g : graph) (entry : node)
    (idom : gmap node node) : gmap node node * list diag :=
  let dom_tree_pred_map := lengauer_tarjan_dominator_tree g entry in
  foldl (λ '(idom, out) v,
           if decide (dom_tree_pred_map v ≠ null_vertex)
           then (map_insert v (dom_tree_pred_map v) idom,
                 out ++ CRAB_LOG "dominator" [MsgIdom (dom_tree_pred_map v) v])
           else (map_insert v null_vertex idom,
                 out ++ CRAB_LOG "dominator" [MsgNoDom v]))
        (idom, []) (vertices g).

(** [df[k]]: the vector stored at [k], empty when [k] is absent. *)
Definition df_at (df : gmap node (list node)) (k : node) : list node :=
  default [] (df !! k).

(** The body of the while loop up to the advance of the runner:
    [df[runner]] is created by the search, and [n] is pushed unless the
    search finds it. *)
Definition push_frontier (runner n : node)
    (df : gmap node (list node)) : gmap node (list node) :=
  let cur := df_at df runner in
  if decide (n ∈ cur) then <[runner := cur]> df
  else <[runner := cur ++ [n]]> df.

(** The while loop. [fuel] bounds the number of iterations; [None]
    means the bound was hit with the guard still true. *)
Fixpoint runner_walk (fuel : nat) (idom : gmap node node) (n runner : node)
    (df : gmap node (list node)) : option (gmap node (list node)) :=
  if decide (runner ≠ null_vertex ∧ runner ≠ idom_at idom n ∧ runner ≠ n)
  then match fuel with
       | 0 => None
       | S fuel' =>
           runner_walk fuel' idom n (idom_at idom runner)
                       (push_frontier runner n df)
       end
  else Some df.

(** A range-based for loop whose body may fail. *)
Fixpoint for_each {A S : Type} (l : list A) (body : A → S → option S)
    (s : S) : option S :=
  match l with
  | [] => Some s
  | x :: l' => s' ← body x s; for_each l' body s'
  end.

Definition frontier_loops (fuel : nat) (g : graph) (idom : gmap node node)
    (df : gmap node (list node)) : option (gmap node (list node)) :=
  for_each (vertices g)
    (λ n, for_each (in_edges n g)
            (λ e, runner_walk fuel idom n (source e))) df.

(** [graph_algo_impl::dominance]. *)
Definition graph_algo_impl_dominance (fuel : nat) (g : graph) (entry : node)
    (df : gmap node (list node))
    : option (gmap node (list node) * list diag) :=
  let '(idom, out) := dominator_tree g entry ∅ in
  df' ← frontier_loops fuel g idom df;
  Some (df', out ++ CRAB_LOG "dominance"
               ((λ kv, MsgFrontier kv.1 kv.2) <$> map_to_list df')).

Definition dominance (fuel : nat) (g : graph)
    (fdf : gmap node (list node))
    : option (gmap node (list node) * list diag) :=
  let out := CRAB_LOG "dominance" [MsgBanner "Dominance Frontiers"] in
  r ← graph_algo_impl_dominance fuel g (entry g) fdf;
  Some (r.1, out ++ r.2).

Definition post_dominance (fuel : nat) (g : graph)
    (rdf : gmap node (list node))
    : option (gmap node (list node) * list diag) :=
  if negb (has_exit g) then Some (rdf, [])
  else
    let rev_g := cfg_rev g in
    let out := CRAB_LOG "dominance" [MsgBanner "Post-Dominance Frontiers"] in
    r ← graph_algo_impl_dominance fuel rev_g (entry rev_g) rdf;
    Some (r.1, out ++ r.2).

End Code.
End Graphs.

Arguments graph node : clear implicits.
Arguments edge node : clear implicits.
Arguments diag node : clear implicits.

(** ** Preconditions and the contract of the external routine *)

Section Contract.
Context {node : Type} `{Countable node}.
Variable null_vertex : node.
Variable lengauer_tarjan_dominator_tree : graph node → node → node → node.

(** Both end points of every edge are vertices of the graph. *)
Definition edges_closed (g : graph node) : Prop :=
  Forall (λ a : edge node, source a ∈ vertices g ∧ target a ∈ vertices g) (edges g).

(** The preconditions of the algorithms: the entry is a vertex, the
    sentinel is distinct from every vertex, and edges join vertices. *)
Definition valid_view (g : graph node) (e : node) : Prop :=
  e ∈ vertices g ∧ (null_vertex ∉ vertices g) ∧ edges_closed g.

Global Instance valid_view_dec g e : Decision (valid_view g e).
Proof. unfold valid_view, edges_closed. apply _. Defined.

(** Modelled from the spec: Boost's [lengauer_tarjan_dominator_tree] is
    not part of this header. For every reachable node except the entry
    the map holds its immediate dominator; for the entry and for
    unreachable nodes it holds the sentinel. *)
Record lt_correct_on (g : graph node) (e : node) : Prop := {
  lt_reachable v :
    v ∈ vertices g → reachable g e v → v ≠ e →
    immediate_dominator g e (lengauer_tarjan_dominator_tree g e v) v;
  lt_entry : lengauer_tarjan_dominator_tree g e e = null_vertex;
  lt_unreachable v :
    v ∈ vertices g → ¬ reachable g e v →
    lengauer_tarjan_dominator_tree g e v = null_vertex
}.

End Contract.

(** ** Deciding reachability and domination; a reference routine *)

Section ReferenceRoutine.
Context {node : Type} `{Countable node}.
Variable null_vertex : node.
Implicit Types (g : graph node) (e u v : node) (l X : list node) (S : gset node).

(** One round of search: the vertices outside [X] with a predecessor in
    [S] join [S]. *)
Definition expand g X S : gset node :=
  S ∪ list_to_set
        (filter (λ v, (v ∉ X) ∧ Exists (λ a, target a = v ∧ source a ∈ S) (edges g))
                (vertices g)).

(** The nodes that a path from [e] reaches without touching [X]. *)
Definition avoiding_closure g e X : gset node :=
  Nat.iter (length (vertices g)) (expand g X)
           (if decide (e ∈ X) then ∅ else {[ e ]}).

Definition reachableb g e v : bool := bool_decide (v ∈ avoiding_closure g e []).

Definition dominatesb g e u v : bool := bool_decide (v ∉ avoiding_closure g e [u]).

Definition strictly_dominatesb g e u v : bool :=
  dominatesb g e u v && bool_decide (u ≠ v).

(** [u] is a strict dominator of [v] that every strict dominator of [v]
    among the vertices dominates. *)
Definition closest_dominator g e v u : Prop :=
  strictly_dominatesb g e u v = true ∧
  Forall (λ k, strictly_dominatesb g e k v = true → dominatesb g e k u = true)
         (vertices g).

Global Instance closest_dominator_dec g e v u : Decision (closest_dominator g e v u).
Proof. unfold closest_dominator. apply _. Defined.

(** A routine that meets the contract of [lt_correct_on] by exhaustive
    search: the immediate dominator of a reachable node other than the
    entry is the first vertex that is its closest strict dominator. *)
Definition search_dominator_tree g e v : node :=
  if reachableb g e v && bool_decide (v ≠ e)
  then default null_vertex (head (filter (closest_dominator g e v) (vertices g)))
  else null_vertex.

End ReferenceRoutine.

(** ** Predicates on the frontier mapping *)

Section FrontierPredicates.
Context {node : Type} `{Countable node}.
Implicit Types (g : graph node) (df : gmap node (list node)) (e k n p : node).

(** No vector holds a node twice. *)
Definition frontiers_nodup df : Prop := ∀ k, NoDup (df_at df k).

(** A key of the mapping has a non-empty vector. *)
Definition frontiers_nonempty df : Prop := ∀ k fr, df !! k = Some fr → fr ≠ [].

(** What the walk for the edge from [p] to [n] adds to the frontier of
    [k]: a reachable [p] contributes to its dominators up to the first one
    that is [n] or strictly dominates [n]; an unreachable [p] contributes
    to itself only. *)
Definition frontier_edge g e n p k : Prop :=
  k ≠ n ∧
  ((reachable g e p ∧ dominates g e k p ∧ ¬ strictly_dominates g e k n) ∨
   (¬ reachable g e p ∧ k = p)).

End FrontierPredicates.

(** ** Further notions: inclusion of mappings, paths to the exit, reports *)

Section FurtherNotions.
Context {node : Type} `{Countable node}.
Implicit Types (g : graph node) (df : gmap node (list node)) (k u v x : node).

(** Every node of every vector of [df1] is in the vector that [df2] holds
    under the same key. *)
Definition frontier_incl df1 df2 : Prop :=
  ∀ k m, m ∈ df_at df1 k → m ∈ df_at df2 k.

(** [path_from g x l v]: [l] lists, first node first, the nodes of a path
    of [g] that starts at [v] and ends at [x]. *)
Inductive path_from g x : list node → node → Prop :=
| path_exit : path_from g x [x] x
| path_back l s v :
    path_from g x l s → (v, s) ∈ edges g → path_from g x (v :: l) v.

(** The dual notions on the paths that lead to [x], the exit. *)
Definition post_dominates g x u v : Prop :=
  ∀ l, path_from g x l v → u ∈ l.

Definition strictly_post_dominates g x u v : Prop :=
  post_dominates g x u v ∧ u ≠ v.

(** What [dominator_tree] reports for a vertex whose entry of
    [dom_tree_pred_map] is [d]. *)
Definition dominator_report (null_vertex d v : node) : diag node :=
  if decide (d ≠ null_vertex) then MsgIdom d v else MsgNoDom v.

End FurtherNotions.

(** ** Example graphs, with nodes numbered from 1 and 0 as the sentinel *)

(** A -> B, A -> C, B -> D, C -> D with A = 1, B = 2, C = 3, D = 4. *)
Definition diamond : graph nat :=
  {| vertices := [1; 2; 3; 4];
     edges := [(1, 2); (1, 3); (2, 4); (3, 4)];
     entry := 1; has_exit := true; exit := 4 |}.

(** A -> B -> C. *)
Definition chain : graph nat :=
  {| vertices := [1; 2; 3];
     edges := [(1, 2); (2, 3)];
     entry := 1; has_exit := true; exit := 3 |}.

(** A loop with header 2 and no exit: 1 -> 2, 2 -> 3, 3 -> 2. *)
Definition loop_graph : graph nat :=
  {| vertices := [1; 2; 3];
     edges := [(1, 2); (2, 3); (3, 2)];
     entry := 1; has_exit := false; exit := 0 |}.

(** 1 -> 2 and 1 -> 5 from the entry, and 4 -> 2 from a node that the
    entry does not reach. *)
Definition stray_graph : graph nat :=
  {| vertices := [1; 2; 4; 5];
     edges := [(1, 2); (1, 5); (4, 2)];
     entry := 1; has_exit := false; exit := 0 |}.

Definition silent : string → bool := λ _, false.
Definition verbose : string → bool := λ _, true.

(** The graph with one more edge, from [n] to itself, at position [i] of
    the edge enumeration. *)
Definition add_self_loop {node : Type} (i : nat) (n : node) (g : graph node)
    : graph node :=
  {| vertices := vertices g;
     edges := take i (edges g) ++ (n, n) :: drop i (edges g);
     entry := entry g; has_exit := has_exit g; exit := exit g |}.

(** The diamond enumerated in another order. *)
Definition diamond_shuffled : graph nat :=
  {| vertices := [4; 3; 2; 1];
     edges := [(3, 4); (1, 3); (2, 4); (1, 2)];
     entry := 1; has_exit := true; exit := 4 |}.

(** ** Paths *)

Section Paths.
Context {node : Type} `{Countable node}.
Implicit Types (g : graph node) (e u v : node) (l : list node).

Lemma path_head g e l v : path_to g e l v → ∃ t, l = v :: t.
Proof. destruct 1; eauto. Qed.

Lemma path_end_in g e l v : path_to g e l v → v ∈ l.
Proof. intros [t ->]%path_head. left. Qed.

Lemma path_entry_in g e l v : path_to g e l v → e ∈ l.
Proof. induction 1; [left | by right]. Qed.

(** Every node of a path is the end of a shorter path contained in it. *)
Lemma path_split g e l v x :
  path_to g e l v → x ∈ l → ∃ l', path_to g e l' x ∧ l' `suffix_of` l.
Proof.
  induction 1 as [|l p v Hp IH He]; intros Hx.
  - apply list_elem_of_singleton in Hx as ->. exists [e]. split; [constructor | done].
  - apply elem_of_cons in Hx as [-> | Hx].
    + exists (v :: l). split; [by econstructor | done].
    + destruct (IH Hx) as (l' & Hl' & Hsuf). exists l'. split; [done |].
      by apply suffix_cons_r.
Qed.

Lemma path_split_strict g e l v x :
  path_to g e l v → x ∈ l → x ≠ v →
  ∃ l', path_to g e l' x ∧ l' ⊆ l ∧ length l' < length l.
Proof.
  intros Hp Hx Hne. destruct (path_split _ _ _ _ _ Hp Hx) as (l' & Hl' & Hsuf).
  exists l'. split; [done |]. split.
  - intros y Hy. destruct Hsuf as [k ->]. apply elem_of_app. by right.
  - destruct Hsuf as [[|a k] ->].
    + destruct (path_head _ _ _ _ Hp) as [t Ht], (path_head _ _ _ _ Hl') as [t' Ht'].
      simpl in Ht. congruence.
    + rewrite length_app. simpl. lia.
Qed.

Lemma path_in_vertices g e l v :
  e ∈ vertices g → edges_closed g → path_to g e l v → ∀ x, x ∈ l → x ∈ vertices g.
Proof.
  intros He Hcl. induction 1 as [|l p v Hp IH Hedge]; intros x Hx.
  - by apply list_elem_of_singleton in Hx as ->.
  - apply elem_of_cons in Hx as [-> | Hx]; [| by apply IH].
    unfold edges_closed in Hcl. rewrite Forall_forall in Hcl.
    by destruct (Hcl _ Hedge).
Qed.

Lemma reachable_in_vertices g e v :
  e ∈ vertices g → edges_closed g → reachable g e v → v ∈ vertices g.
Proof.
  intros He Hcl [l Hl]. eapply path_in_vertices; eauto using path_end_in.
Qed.

Lemma reachable_entry g e : reachable g e e.
Proof. exists [e]. constructor. Qed.

Lemma reachable_step g e p v :
  reachable g e p → (p, v) ∈ edges g → reachable g e v.
Proof. intros [l Hl] He. exists (v :: l). by econstructor. Qed.

(** ** Elementary facts about dominators *)

Lemma dominates_refl g e v : dominates g e v v.
Proof. intros l Hl. by eapply path_end_in. Qed.

Lemma entry_dominates g e v : dominates g e e v.
Proof. intros l Hl. by eapply path_entry_in. Qed.

Lemma dominates_trans g e a b c :
  dominates g e a b → dominates g e b c → dominates g e a c.
Proof.
  intros Hab Hbc l Hl.
  destruct (path_split _ _ _ _ b Hl (Hbc _ Hl)) as (l' & Hl' & [k ->]).
  apply elem_of_app. right. by apply Hab.
Qed.

Lemma dominator_reachable g e u v :
  dominates g e u v → reachable g e v → reachable g e u.
Proof.
  intros Hd [l Hl]. destruct (path_split _ _ _ _ u Hl (Hd _ Hl)) as (l' & Hl' & _).
  by exists l'.
Qed.

Lemma dominates_entry g e u : dominates g e u e → u = e.
Proof.
  intros Hd. specialize (Hd [e] (path_entry g e)).
  by apply list_elem_of_singleton in Hd.
Qed.

(** On reachable nodes domination is antisymmetric. *)
Lemma dominates_antisym g e a b :
  reachable g e b → dominates g e a b → dominates g e b a → a = b.
Proof.
  intros [l Hl] Hab Hba. destruct (decide (a = b)) as [|Hne]; [done | exfalso].
  remember (length l) as n eqn:Hn.
  revert l Hl Hn. induction (lt_wf n) as [n _ IH]. intros l Hl ->.
  destruct (path_split_strict _ _ _ _ a Hl (Hab _ Hl) Hne) as (l1 & Hl1 & _ & Hlen1).
  destruct (path_split_strict _ _ _ _ b Hl1 (Hba _ Hl1)) as (l2 & Hl2 & _ & Hlen2);
    [congruence |].
  eapply (IH (length l2)); [lia | done | done].
Qed.

(** The dominator of a node dominates its reachable predecessors too,
    unless it is the node itself. *)
Lemma dominates_pred g e u p v :
  dominates g e u v → u ≠ v → (p, v) ∈ edges g → dominates g e u p.
Proof.
  intros Hd Hne He l Hl.
  assert (u ∈ v :: l) as Hin by (apply Hd; by econstructor).
  by apply elem_of_cons in Hin as [-> | Hin].
Qed.

End Paths.

(** ** Soundness and completeness of the search *)

Section Deciding.
Context {node : Type} `{Countable node}.
Implicit Types (g : graph node) (e u v : node) (l X : list node) (S : gset node).

Lemma elem_of_expand g X S v :
  v ∈ expand g X S ↔
  v ∈ S ∨ (v ∈ vertices g ∧ (v ∉ X) ∧ ∃ p, (p, v) ∈ edges g ∧ p ∈ S).
Proof.
  unfold expand. rewrite elem_of_union, elem_of_list_to_set, list_elem_of_filter.
  rewrite Exists_exists. split.
  - intros [? | [[? ([p w] & Ha & Ht & Hs)] ?]]; [by left | right].
    simpl in *. subst. eauto.
  - intros [? | (? & ? & p & ? & ?)]; [by left | right].
    split; [| done]. split; [done |]. by exists (p, v).
Qed.

Lemma expand_incl g X S : S ⊆ expand g X S.
Proof. intros v Hv. apply elem_of_expand. by left. Qed.

Lemma iter_expand_mono g X S k : S ⊆ Nat.iter k (expand g X) S.
Proof.
  induction k as [|k IH]; simpl; [done |].
  etrans; [apply IH | apply expand_incl].
Qed.

Lemma iter_expand_fixed g X S k :
  expand g X S = S → Nat.iter k (expand g X) S = S.
Proof. intros Hfix. induction k as [|k IH]; simpl; [done |]. by rewrite IH. Qed.

Lemma iter_expand_in_vertices g X S k :
  S ⊆ list_to_set (vertices g) →
  Nat.iter k (expand g X) S ⊆ list_to_set (vertices g).
Proof.
  intros HS. induction k as [|k IH]; simpl; [done |].
  intros v [Hv | (Hv & _)]%elem_of_expand; [by apply IH |].
  by apply elem_of_list_to_set.
Qed.

(** The search either has stabilised after [k] rounds or has found more
    than [k] nodes. *)
Lemma iter_expand_progress g X S k :
  expand g X (Nat.iter k (expand g X) S) = Nat.iter k (expand g X) S ∨
  k + size S ≤ size (Nat.iter k (expand g X) S).
Proof.
  induction k as [|k IH]; simpl; [right; lia |].
  destruct IH as [Hfix | Hsz].
  - left. by rewrite !Hfix.
  - set (Sk := Nat.iter k (expand g X) S) in *.
    destruct (decide (expand g X Sk = Sk)) as [Hfix | Hnfix].
    + left. by rewrite !Hfix.
    + right. assert (Sk ⊂ expand g X Sk) as Hsub.
      { split; [apply expand_incl |]. intros Hrev. apply Hnfix.
        apply set_eq. intros v. split; [apply Hrev | apply expand_incl]. }
      apply subset_size in Hsub. lia.
Qed.

Lemma size_list_to_set_le l : size (list_to_set l : gset node) ≤ length l.
Proof.
  induction l as [|x l IH].
  - by rewrite list_to_set_nil, size_empty.
  - rewrite list_to_set_cons, size_union_alt.
    rewrite size_singleton.
    assert (list_to_set l ∖ {[x]} ⊆ (list_to_set l : gset node)) as Hsub by set_solver.
    apply subseteq_size in Hsub. simpl. lia.
Qed.

Lemma avoiding_closure_fixed g e X :
  e ∈ vertices g →
  expand g X (avoiding_closure g e X) = avoiding_closure g e X.
Proof.
  intros He. unfold avoiding_closure.
  set (S0 := if decide (e ∈ X) then ∅ else {[e]} : gset node).
  destruct (decide (S0 = ∅)) as [Hemp | Hne].
  { assert (expand g X ∅ = ∅) as Hfix.
    { apply set_eq. intros v. rewrite elem_of_expand. set_solver. }
    rewrite Hemp. by rewrite !iter_expand_fixed. }
  destruct (iter_expand_progress g X S0 (length (vertices g))) as [Hfix | Hsz];
    [done | exfalso].
  assert (S0 ⊆ list_to_set (vertices g)) as HS0.
  { unfold S0. case_decide; set_solver. }
  pose proof (subseteq_size _ _ (iter_expand_in_vertices g X S0 (length (vertices g)) HS0)).
  pose proof (size_list_to_set_le (vertices g)).
  assert (size S0 ≠ 0) by (by intros ?%size_empty_inv%leibniz_equiv).
  lia.
Qed.

(** Soundness and completeness of the search. *)
Lemma avoiding_closure_sound g e X v :
  v ∈ avoiding_closure g e X →
  ∃ l, path_to g e l v ∧ ∀ x, x ∈ X → x ∉ l.
Proof.
  unfold avoiding_closure. generalize (length (vertices g)) as k.
  intros k. revert v. induction k as [|k IH]; simpl; intros v Hv.
  - case_decide as HeX; [set_solver |].
    apply elem_of_singleton in Hv as ->. exists [e]. split; [constructor |].
    intros x Hx ->%list_elem_of_singleton. done.
  - apply elem_of_expand in Hv as [Hv | (Hvv & HvX & p & Hedge & Hp)]; [by apply IH |].
    destruct (IH _ Hp) as (l & Hl & Hav). exists (v :: l). split; [by econstructor |].
    intros x Hx [-> | Hin]%elem_of_cons; [done | by eapply Hav].
Qed.

Lemma avoiding_closure_complete g e X l v :
  e ∈ vertices g → edges_closed g →
  path_to g e l v → (∀ x, x ∈ X → x ∉ l) → v ∈ avoiding_closure g e X.
Proof.
  intros He Hcl. induction 1 as [|l p v Hp IH Hedge]; intros Hav.
  - unfold avoiding_closure. apply iter_expand_mono.
    case_decide as HeX; [| set_solver]. exfalso. apply (Hav e HeX). left.
  - rewrite <- avoiding_closure_fixed by done. apply elem_of_expand. right.
    split; [| split].
    + unfold edges_closed in Hcl. rewrite Forall_forall in Hcl.
      by destruct (Hcl _ Hedge).
    + intros HvX. apply (Hav v HvX). left.
    + exists p. split; [done |]. apply IH. intros x Hx Hin. apply (Hav x Hx). by right.
Qed.

Lemma reachableb_spec g e v :
  e ∈ vertices g → edges_closed g → reachableb g e v = true ↔ reachable g e v.
Proof.
  intros He Hcl. unfold reachableb. rewrite bool_decide_eq_true. split.
  - intros (l & Hl & _)%avoiding_closure_sound. by exists l.
  - intros [l Hl]. eapply avoiding_closure_complete; eauto. set_solver.
Qed.

Lemma dominatesb_spec g e u v :
  e ∈ vertices g → edges_closed g → dominatesb g e u v = true ↔ dominates g e u v.
Proof.
  intros He Hcl. unfold dominatesb. rewrite bool_decide_eq_true. split.
  - intros Hnot l Hl. destruct (decide (u ∈ l)) as [|Hnin]; [done | exfalso].
    apply Hnot. eapply avoiding_closure_complete; eauto.
    by intros x ->%list_elem_of_singleton.
  - intros Hd (l & Hl & Hav)%avoiding_closure_sound.
    apply (Hav u); [left | by apply Hd].
Qed.

Lemma strictly_dominatesb_spec g e u v :
  e ∈ vertices g → edges_closed g →
  strictly_dominatesb g e u v = true ↔ strictly_dominates g e u v.
Proof.
  intros He Hcl. unfold strictly_dominatesb, strictly_dominates.
  rewrite andb_true_iff, bool_decide_eq_true, dominatesb_spec by done. done.
Qed.

Lemma reachable_dec g e v :
  e ∈ vertices g → edges_closed g → {reachable g e v} + {¬ reachable g e v}.
Proof.
  intros He Hcl. destruct (reachableb g e v) eqn:Hb.
  - left. by apply reachableb_spec.
  - right. intros Hr%reachableb_spec; [congruence | done | done].
Qed.

Lemma dominates_dec g e u v :
  e ∈ vertices g → edges_closed g → {dominates g e u v} + {¬ dominates g e u v}.
Proof.
  intros He Hcl. destruct (dominatesb g e u v) eqn:Hb.
  - left. by apply dominatesb_spec.
  - right. intros Hr%dominatesb_spec; [congruence | done | done].
Qed.

(** A node that does not dominate [v] is avoided by some path to [v]. *)
Lemma not_dominates_path g e u v :
  e ∈ vertices g → edges_closed g → ¬ dominates g e u v →
  ∃ l, path_to g e l v ∧ u ∉ l.
Proof.
  intros He Hcl Hnd.
  destruct (decide (v ∈ avoiding_closure g e [u])) as [Hin | Hnin].
  - destruct (avoiding_closure_sound _ _ _ _ Hin) as (l & Hl & Hav).
    exists l. split; [done |]. apply Hav. left.
  - exfalso. apply Hnd. apply dominatesb_spec; [done | done |].
    unfold dominatesb. by apply bool_decide_eq_true.
Qed.

End Deciding.

(** ** The dominators of a node form a chain *)

Section Dominators.
Context {node : Type} `{Countable node}.
Variables (g : graph node) (e : node).
Hypothesis entry_vertex : e ∈ vertices g.
Hypothesis closed : edges_closed g.

Lemma dominators_comparable a b v :
  dominates g e a v → dominates g e b v → reachable g e v →
  dominates g e a b ∨ dominates g e b a.
Proof.
  intros Hav Hbv [l Hl].
  destruct (dominates_dec g e a b entry_vertex closed) as [|Hnab]; [by left |].
  destruct (dominates_dec g e b a entry_vertex closed) as [|Hnba]; [by right |].
  exfalso.
  destruct (not_dominates_path g e a b entry_vertex closed Hnab) as (la & Hla & Hna).
  destruct (not_dominates_path g e b a entry_vertex closed Hnba) as (lb & Hlb & Hnb).
  assert (∃ l', path_to g e l' v ∧ (a ∉ l' ∨ b ∉ l')) as (l' & Hl' & Hout).
  { clear Hav Hbv. induction Hl as [|l p w Hp IH Hedge].
    - exists [e]. split; [constructor |]. left.
      intros ->%list_elem_of_singleton. apply Hnab, entry_dominates.
    - destruct IH as (l' & Hl' & Hout).
      destruct (decide (w = a)) as [-> | Hwa]; [exists lb; by auto |].
      destruct (decide (w = b)) as [-> | Hwb]; [exists la; by auto |].
      exists (w :: l'). split; [by econstructor |].
      destruct Hout as [Ha | Hb]; [left | right];
        intros [? | ?]%elem_of_cons; congruence. }
  destruct Hout as [Ha | Hb]; [apply Ha, Hav | apply Hb, Hbv]; done.
Qed.

(** Every strict dominator of [v] dominates the immediate dominator. *)
Lemma immediate_dominator_closest u v k :
  reachable g e v → immediate_dominator g e u v →
  strictly_dominates g e k v → dominates g e k u.
Proof.
  intros Hr [[Hu Hne] Himm] [Hk Hkv].
  destruct (decide (k = u)) as [-> | Hku]; [apply dominates_refl |].
  destruct (dominators_comparable u k v Hu Hk Hr) as [Huk | Hku']; [| done].
  exfalso. apply (Himm k); [by split | done |]. split; [done | congruence].
Qed.

Lemma immediate_dominator_unique u u' v :
  reachable g e v → immediate_dominator g e u v → immediate_dominator g e u' v →
  u = u'.
Proof.
  intros Hr Hu Hu'.
  apply (dominates_antisym g e).
  - destruct Hu' as [[Hd _] _]. by eapply dominator_reachable.
  - eapply immediate_dominator_closest; [done | apply Hu' | apply Hu].
  - eapply immediate_dominator_closest; [done | apply Hu | apply Hu'].
Qed.

(** The entry has no strict dominator. *)
Lemma entry_no_strict_dominator k : ¬ strictly_dominates g e k e.
Proof. intros [Hd Hne]. by apply dominates_entry in Hd. Qed.

(** A node outside the reachable part lies on no path, so it dominates no
    reachable node. *)
Lemma unreachable_not_dominates u v :
  ¬ reachable g e u → reachable g e v → ¬ dominates g e u v.
Proof. intros Hnu Hv Hd. apply Hnu. by eapply dominator_reachable. Qed.

End Dominators.

(** ** The dominator mapping built by [dominator_tree] *)

Section DominatorTree.
Context {node : Type} `{Countable node}.
Variable null_vertex : node.
Variable log_enabled : string → bool.
Variable lengauer_tarjan_dominator_tree : graph node → node → node → node.

Local Abbreviation lt_tree := lengauer_tarjan_dominator_tree.
Local Abbreviation dom_tree := (dominator_tree null_vertex log_enabled lt_tree).
Local Abbreviation idom_of := (idom_at null_vertex).

Lemma lookup_map_insert (idom : gmap node node) v d x :
  map_insert v d idom !! x =
  match idom !! x with
  | Some d' => Some d'
  | None => if decide (x = v) then Some d else None
  end.
Proof.
  unfold map_insert. destruct (idom !! v) as [d'|] eqn:Hv.
  - destruct (idom !! x) eqn:Hx; [done |]. case_decide; [congruence | done].
  - rewrite lookup_insert. case_decide as Hvx.
    + subst. rewrite Hv. by rewrite decide_True.
    + destruct (idom !! x); [done |]. by rewrite decide_False by congruence.
Qed.

(** The mapping does not depend on what is logged: it is the fold of
    [Map::insert] over the vertices. *)
Lemma dominator_tree_fst g e idom :
  (dom_tree g e idom).1 =
  foldl (λ m v, map_insert v (lt_tree g e v) m) idom (vertices g).
Proof.
  unfold dominator_tree.
  match goal with |- context [foldl ?f _ _] => set (step := f) end.
  generalize (@nil (diag node)) as out.
  revert idom. induction (vertices g) as [|v l IH]; intros idom out; simpl; [done |].
  case_decide as Hv.
  - apply IH.
  - assert (lt_tree g e v = null_vertex) as -> by (by destruct (decide (lt_tree g e v = null_vertex))).
    apply IH.
Qed.

Lemma dominator_tree_lookup g e v :
  (dom_tree g e ∅).1 !! v =
  if decide (v ∈ vertices g) then Some (lt_tree g e v) else None.
Proof.
  rewrite dominator_tree_fst.
  assert (∀ l (m : gmap node node),
    foldl (λ m v, map_insert v (lt_tree g e v) m) m l !! v =
    match m !! v with
    | Some d => Some d
    | None => if decide (v ∈ l) then Some (lt_tree g e v) else None
    end) as Hfold.
  { induction l as [|x l IH]; intros m; cbn [foldl].
    - destruct (m !! v); [done |]. by rewrite decide_False by apply not_elem_of_nil.
    - rewrite IH, lookup_map_insert. destruct (m !! v) eqn:Hm; [done |].
      destruct (decide (v = x)) as [-> | Hne].
      + by rewrite decide_True by left.
      + destruct (decide (v ∈ l)) as [Hin | Hnin].
        * by rewrite decide_True by (by right).
        * rewrite decide_False; [done |]. by intros [? | ?]%elem_of_cons. }
  by rewrite Hfold, lookup_empty.
Qed.

Lemma idom_at_vertex g e v :
  v ∈ vertices g → idom_of (dom_tree g e ∅).1 v = lt_tree g e v.
Proof.
  intros Hv. unfold idom_at. rewrite dominator_tree_lookup.
  by rewrite decide_True.
Qed.

Lemma dominator_tree_dom g e :
  dom (dom_tree g e ∅).1 = list_to_set (vertices g).
Proof.
  apply set_eq. intros v.
  rewrite elem_of_dom, dominator_tree_lookup, elem_of_list_to_set.
  case_decide; split; intros; try done; by eauto using is_Some_None.
Qed.

End DominatorTree.

(** ** The frontier vectors *)

Section PushFrontier.
Context {node : Type} `{Countable node}.
Variable null_vertex : node.
Implicit Types (df : gmap node (list node)) (idom : gmap node node).

Lemma df_at_push_frontier df r n k :
  df_at (push_frontier r n df) k =
  if decide (k = r)
  then (if decide (n ∈ df_at df r) then df_at df r else df_at df r ++ [n])
  else df_at df k.
Proof.
  unfold push_frontier. destruct (decide (k = r)) as [-> | Hne].
  - case_decide; unfold df_at at 1; by rewrite lookup_insert_eq.
  - case_decide; unfold df_at at 1; by rewrite lookup_insert_ne.
Qed.

Lemma elem_of_push_frontier df r n k m :
  m ∈ df_at (push_frontier r n df) k ↔ m ∈ df_at df k ∨ (m = n ∧ k = r).
Proof.
  rewrite df_at_push_frontier. destruct (decide (k = r)) as [-> | Hne].
  - case_decide as Hin.
    + split; [by left | intros [? | [-> _]]; done].
    + rewrite elem_of_app, list_elem_of_singleton. naive_solver.
  - naive_solver.
Qed.

(** The walk stops at once on the sentinel and on the node itself. *)
Lemma runner_walk_null fuel idom n df :
  runner_walk null_vertex fuel idom n null_vertex df = Some df.
Proof. destruct fuel; simpl; by rewrite decide_False by naive_solver. Qed.

Lemma runner_walk_self fuel idom n df :
  runner_walk null_vertex fuel idom n n df = Some df.
Proof. destruct fuel; simpl; by rewrite decide_False by naive_solver. Qed.

Lemma runner_walk_unfold fuel idom n r df :
  runner_walk null_vertex fuel idom n r df =
  if decide (r ≠ null_vertex ∧ r ≠ idom_at null_vertex idom n ∧ r ≠ n)
  then match fuel with
       | 0 => None
       | S fuel' =>
           runner_walk null_vertex fuel' idom n (idom_at null_vertex idom r)
                       (push_frontier r n df)
       end
  else Some df.
Proof. by destruct fuel. Qed.

(** A property of the frontier mapping that every push preserves holds
    when the loops are left. *)
Lemma runner_walk_preserves (P : gmap node (list node) → Prop) fuel idom n :
  (∀ r df, P df → P (push_frontier r n df)) →
  ∀ r df df', runner_walk null_vertex fuel idom n r df = Some df' → P df → P df'.
Proof.
  intros Hpush. induction fuel as [|fuel IH]; intros r df df'; simpl.
  - case_decide; [done |]. by intros [= ->].
  - case_decide; [| by intros [= ->]]. intros Hw Hdf. eapply IH; eauto.
Qed.

Lemma for_each_preserves {A S : Type} (P : S → Prop) (body : A → S → option S) l :
  (∀ x s s', x ∈ l → body x s = Some s' → P s → P s') →
  ∀ s s', for_each l body s = Some s' → P s → P s'.
Proof.
  induction l as [|x l IH]; intros Hbody s s'; simpl.
  - by intros [= ->].
  - destruct (body x s) as [s1|] eqn:Hx; simpl; [| done]. intros Hl Hs.
    eapply IH; [| done |].
    + intros y t t' Hy. apply Hbody. by right.
    + eapply Hbody; [left | done | done].
Qed.

Lemma frontier_loops_preserves (P : gmap node (list node) → Prop) fuel g idom :
  (∀ r n df, P df → P (push_frontier r n df)) →
  ∀ df df', frontier_loops null_vertex fuel g idom df = Some df' → P df → P df'.
Proof.
  intros Hpush df df'. unfold frontier_loops. apply for_each_preserves.
  intros n s s' _. apply for_each_preserves.
  intros a t t' _. apply runner_walk_preserves. intros r. apply Hpush.
Qed.

Lemma push_frontier_nodup r n df :
  frontiers_nodup df → frontiers_nodup (push_frontier r n df).
Proof.
  intros Hnd k. rewrite df_at_push_frontier. case_decide; [| apply Hnd].
  case_decide as Hin; [apply Hnd |]. apply NoDup_app. split; [apply Hnd |].
  split; [| apply NoDup_singleton]. intros x Hx ->%list_elem_of_singleton. done.
Qed.

Lemma push_frontier_nonempty r n df :
  frontiers_nonempty df → frontiers_nonempty (push_frontier r n df).
Proof.
  intros Hne k fr. unfold push_frontier.
  destruct (decide (k = r)) as [-> | Hkr].
  - case_decide as Hin; rewrite lookup_insert_eq; intros [= <-].
    + intros Hnil. rewrite Hnil in Hin. by apply not_elem_of_nil in Hin.
    + by destruct (df_at df r).
  - case_decide; rewrite lookup_insert_ne by done; apply Hne.
Qed.

End PushFrontier.

(** ** The runner walks over the computed dominator mapping *)

Section FrontierWalk.
Context {node : Type} `{Countable node}.
Variable null_vertex : node.
Variable log_enabled : string → bool.
Variable lengauer_tarjan_dominator_tree : graph node → node → node → node.
Variables (g : graph node) (e : node).
Hypothesis valid : valid_view null_vertex g e.
Hypothesis lt_ok : lt_correct_on null_vertex lengauer_tarjan_dominator_tree g e.

Local Abbreviation idom :=
  (dominator_tree null_vertex log_enabled lengauer_tarjan_dominator_tree g e ∅).1.
Local Abbreviation idom_of := (idom_at null_vertex idom).
Local Abbreviation walk := (runner_walk null_vertex).

Implicit Types (df : gmap node (list node)) (k m n p r v : node).

Lemma valid_entry : e ∈ vertices g.
Proof. apply valid. Qed.

Lemma valid_closed : edges_closed g.
Proof. apply valid. Qed.

Lemma null_not_vertex v : v ∈ vertices g → v ≠ null_vertex.
Proof. intros Hv ->. by apply valid. Qed.

Lemma reachable_vertex v : reachable g e v → v ∈ vertices g.
Proof. apply reachable_in_vertices; [apply valid_entry | apply valid_closed]. Qed.

Lemma edge_vertices p n : (p, n) ∈ edges g → p ∈ vertices g ∧ n ∈ vertices g.
Proof.
  intros He. pose proof valid_closed as Hcl. unfold edges_closed in Hcl.
  rewrite Forall_forall in Hcl. apply (Hcl _ He).
Qed.

Lemma idom_of_entry : idom_of e = null_vertex.
Proof. rewrite idom_at_vertex by apply valid_entry. apply lt_ok. Qed.

Lemma idom_of_unreachable v : ¬ reachable g e v → idom_of v = null_vertex.
Proof.
  intros Hnr. destruct (decide (v ∈ vertices g)) as [Hv | Hv].
  - rewrite idom_at_vertex by done. by apply lt_ok.
  - unfold idom_at. by rewrite dominator_tree_lookup, decide_False.
Qed.

Lemma idom_of_reachable v :
  reachable g e v → v ≠ e → immediate_dominator g e (idom_of v) v.
Proof.
  intros Hr Hne. rewrite idom_at_vertex by by apply reachable_vertex.
  apply lt_ok; [by apply reachable_vertex | done | done].
Qed.

Lemma idom_of_strict v :
  reachable g e v → v ≠ e → strictly_dominates g e (idom_of v) v.
Proof. intros Hr Hne. by apply idom_of_reachable. Qed.

Lemma idom_of_closest v k :
  reachable g e v → v ≠ e → strictly_dominates g e k v → dominates g e k (idom_of v).
Proof.
  intros Hr Hne Hk.
  eapply immediate_dominator_closest;
    [apply valid_entry | apply valid_closed | done | by apply idom_of_reachable | done].
Qed.

Lemma idom_of_reachable_node v :
  reachable g e v → v ≠ e → reachable g e (idom_of v).
Proof.
  intros Hr Hne. eapply dominator_reachable; [| done]. by apply idom_of_strict.
Qed.

(** The value stored for a node is the sentinel or a reachable node. *)
Lemma idom_of_cases v : idom_of v = null_vertex ∨ reachable g e (idom_of v).
Proof.
  destruct (reachable_dec g e v valid_entry valid_closed) as [Hr | Hnr];
    [| left; by apply idom_of_unreachable].
  destruct (decide (v = e)) as [-> | Hne]; [left; apply idom_of_entry |].
  right. by apply idom_of_reachable_node.
Qed.

Lemma nodup_vertices_length (s : list node) :
  NoDup s → (∀ x, x ∈ s → x ∈ vertices g) → length s ≤ length (vertices g).
Proof. intros Hnd Hsub. by apply submseteq_length, NoDup_submseteq. Qed.

(** Where the walk stops, every dominator of the runner other than [n]
    strictly dominates [n]: nothing more is to be added. *)
Lemma runner_stopped n r df :
  reachable g e n → reachable g e r →
  ¬ (r ≠ null_vertex ∧ r ≠ idom_of n ∧ r ≠ n) →
  ∃ df', Some df = Some df' ∧
    ∀ k m, m ∈ df_at df' k ↔
           m ∈ df_at df k ∨
           (m = n ∧ dominates g e k r ∧ k ≠ n ∧ ¬ strictly_dominates g e k n).
Proof.
  intros Hn Hr Hguard.
  exists df. split; [done |]. intros k m. split; [by left |].
  intros [? | (-> & Hkr & Hkn & Hnsd)]; [done | exfalso].
  apply Hnsd. split; [| done].
  destruct (decide (r = n)) as [-> | Hrn]; [done |].
  assert (r = idom_of n) as ->.
  { destruct (decide (r = idom_of n)); [done | exfalso]. apply Hguard.
    split; [by apply null_not_vertex, reachable_vertex | done]. }
  assert (n ≠ e) as Hne.
  { intros ->. rewrite idom_of_entry in Hr.
    by apply reachable_vertex, null_not_vertex in Hr. }
  eapply dominates_trans; [done |]. by apply idom_of_strict.
Qed.

(** What a walk from a reachable runner adds: [n] joins the frontier of
    every dominator of the runner that neither is [n] nor strictly
    dominates [n]. The list [s] collects the runners already left behind;
    none of them dominates the current one, which bounds the walk. *)
Lemma runner_walk_reachable fuel n :
  reachable g e n →
  ∀ r df (s : list node),
    NoDup s → (∀ x, x ∈ s → x ∈ vertices g) → (∀ x, x ∈ s → ¬ dominates g e x r) →
    length (vertices g) ≤ fuel + length s →
    reachable g e r →
    n = e ∨ dominates g e (idom_of n) r →
    ∃ df', walk fuel idom n r df = Some df' ∧
      ∀ k m, m ∈ df_at df' k ↔
             m ∈ df_at df k ∨
             (m = n ∧ dominates g e k r ∧ k ≠ n ∧ ¬ strictly_dominates g e k n).
Proof.
  intros Hn. induction fuel as [|fuel IH]; intros r df s Hnd Hsub Hs Hfuel Hr Hstop;
    rewrite runner_walk_unfold;
    (case_decide as Hguard; [| by eapply runner_stopped]).
  - (* out of fuel: impossible, [r :: s] would exceed the vertices *)
    exfalso. assert (length (r :: s) ≤ length (vertices g)) as Hlen.
    { apply nodup_vertices_length.
      - apply NoDup_cons. split; [| done]. intros Hin. apply (Hs _ Hin), dominates_refl.
      - intros x [-> | Hx]%elem_of_cons; [by apply reachable_vertex | by apply Hsub]. }
    simpl in *. lia.
  - destruct Hguard as (Hrnull & Hrin & Hrn).
    assert (r ≠ e) as Hre.
    { intros ->. destruct Hstop as [-> | Hd]; [done |].
      apply dominates_entry in Hd. congruence. }
    pose proof (idom_of_strict r Hr Hre) as [Hdr Hner].
    pose proof (idom_of_reachable_node r Hr Hre) as Hr'.
    destruct (IH (idom_of r) (push_frontier r n df) (r :: s)) as (df' & Hwalk & Hdf').
    + apply NoDup_cons. split; [| done]. intros Hin. apply (Hs _ Hin), dominates_refl.
    + intros x [-> | Hx]%elem_of_cons; [by apply reachable_vertex | by apply Hsub].
    + intros x [-> | Hx]%elem_of_cons Hd.
      * apply Hner. by apply (dominates_antisym g e).
      * apply (Hs _ Hx). by eapply dominates_trans.
    + simpl. lia.
    + done.
    + destruct Hstop as [-> | Hd]; [by left | right].
      apply idom_of_closest; [done | done |]. split; [done | congruence].
    + exists df'. split; [done |]. intros k m. rewrite Hdf', elem_of_push_frontier.
      split.
      * intros [[? | [-> ->]] | (-> & Hk & Hkn & Hnsd)]; [by left | right | right].
        -- split; [done |]. split; [apply dominates_refl |]. split; [done |].
           intros Hsd. assert (n ≠ e) as Hne.
           { intros ->. by eapply entry_no_strict_dominator. }
           destruct Hstop as [-> | Hd]; [done |]. apply Hrin.
           apply (dominates_antisym g e); [by apply idom_of_reachable_node | | done].
           by apply idom_of_closest.
        -- split; [done |]. split; [by eapply dominates_trans | done].
      * intros [? | (-> & Hk & Hkn & Hnsd)]; [by left; left |].
        destruct (decide (k = r)) as [-> | Hkr]; [left; right; done | right].
        split; [done |]. split; [| done]. apply idom_of_closest; done.
Qed.

(** A walk from an unreachable predecessor makes one step. *)
Lemma runner_walk_unreachable fuel n r df :
  r ∈ vertices g → ¬ reachable g e r → 0 < fuel →
  ∃ df', walk fuel idom n r df = Some df' ∧
    ∀ k m, m ∈ df_at df' k ↔ m ∈ df_at df k ∨ (m = n ∧ k = r ∧ r ≠ n).
Proof.
  intros Hv Hnr Hfuel. destruct fuel as [|fuel]; [lia |].
  rewrite runner_walk_unfold. case_decide as Hguard.
  - rewrite idom_of_unreachable, runner_walk_null by done.
    eexists. split; [done |]. intros k m. rewrite elem_of_push_frontier.
    destruct Hguard as (_ & _ & ?). naive_solver.
  - exists df. split; [done |]. intros k m. split; [by left |].
    intros [? | (-> & -> & Hrn)]; [done | exfalso]. apply Hguard.
    split; [by apply null_not_vertex |]. split; [| done].
    intros Heq. destruct (idom_of_cases n) as [Hnull | Hreach].
    + apply null_not_vertex in Hv. congruence.
    + apply Hnr. congruence.
Qed.

Lemma vertices_nonempty v : v ∈ vertices g → 0 < length (vertices g).
Proof. destruct (vertices g); [by intros ?%not_elem_of_nil | simpl; lia]. Qed.

Lemma runner_walk_edge fuel p n df :
  (p, n) ∈ edges g → length (vertices g) ≤ fuel →
  ∃ df', walk fuel idom n p df = Some df' ∧
    ∀ k m, m ∈ df_at df' k ↔ m ∈ df_at df k ∨ (m = n ∧ frontier_edge g e n p k).
Proof.
  intros Hedge Hfuel. destruct (edge_vertices _ _ Hedge) as [Hp Hn].
  destruct (reachable_dec g e p valid_entry valid_closed) as [Hr | Hnr].
  - assert (reachable g e n) as Hrn by by eapply reachable_step.
    destruct (runner_walk_reachable fuel n Hrn p df []) as (df' & Hw & Hdf');
      [apply NoDup_nil_2 | by intros x ?%not_elem_of_nil
      | by intros x ?%not_elem_of_nil | simpl; lia | done | |].
    { destruct (decide (n = e)) as [| Hne]; [by left | right].
      destruct (idom_of_strict n Hrn Hne) as [Hd Hdn]. by eapply dominates_pred. }
    exists df'. split; [done |]. intros k m. rewrite Hdf'.
    unfold frontier_edge. naive_solver.
  - destruct (runner_walk_unreachable fuel n p df Hp Hnr) as (df' & Hw & Hdf').
    { pose proof (vertices_nonempty p Hp). lia. }
    exists df'. split; [done |]. intros k m. rewrite Hdf'.
    unfold frontier_edge. naive_solver.
Qed.

Lemma in_edges_loop fuel n (es : list (edge node)) :
  (∀ a, a ∈ es → a ∈ edges g ∧ target a = n) → length (vertices g) ≤ fuel →
  ∀ df, ∃ df',
    for_each es (λ a, walk fuel idom n (source a)) df = Some df' ∧
    ∀ k m, m ∈ df_at df' k ↔
           m ∈ df_at df k ∨ (m = n ∧ ∃ a, a ∈ es ∧ frontier_edge g e n (source a) k).
Proof.
  intros Hes Hfuel. induction es as [|[p t] es IH]; intros df.
  - exists df. split; [done |]. intros k m. split; [by left |].
    intros [? | (_ & a & ?%not_elem_of_nil & _)]; done.
  - destruct (Hes (p, t)) as [Hedge Ht]; [left |]. simpl in Ht. subst t.
    destruct (runner_walk_edge fuel p n df Hedge Hfuel) as (df1 & Hw & Hdf1).
    destruct (IH (λ a Ha, Hes a (list_elem_of_further _ _ _ Ha)) df1) as (df' & Hl & Hdf').
    exists df'. split; [simpl; by rewrite Hw |]. intros k m.
    rewrite Hdf', Hdf1. split.
    + intros [[? | [-> Hf]] | (-> & a & Ha & Hf)]; [by left | right | right];
        (split; [done |]); [exists (p, n) | exists a]; (split; [| done]);
        [left | by right].
    + intros [? | (-> & a & [-> | Ha]%elem_of_cons & Hf)];
        [by left; left | left; right; done | right; eauto].
Qed.

Lemma elem_of_in_edges (a : edge node) n :
  a ∈ in_edges n g ↔ a ∈ edges g ∧ target a = n.
Proof. unfold in_edges. rewrite list_elem_of_filter. tauto. Qed.

Lemma vertices_loop fuel (vs : list node) :
  length (vertices g) ≤ fuel →
  ∀ df, ∃ df',
    for_each vs
      (λ n, for_each (in_edges n g) (λ a, walk fuel idom n (source a))) df
    = Some df' ∧
    ∀ k m, m ∈ df_at df' k ↔
           m ∈ df_at df k ∨ (m ∈ vs ∧ ∃ p, (p, m) ∈ edges g ∧ frontier_edge g e m p k).
Proof.
  intros Hfuel. induction vs as [|n vs IH]; intros df.
  - exists df. split; [done |]. intros k m. split; [by left |].
    intros [? | (?%not_elem_of_nil & _)]; done.
  - destruct (in_edges_loop fuel n (in_edges n g)) with (df := df)
      as (df1 & Hl1 & Hdf1); [by intros a ?%elem_of_in_edges | done |].
    destruct (IH df1) as (df' & Hl & Hdf').
    exists df'. split; [simpl; by rewrite Hl1 |]. intros k m.
    rewrite Hdf', Hdf1. split.
    + intros [[? | (-> & [p t] & [Ha Ht]%elem_of_in_edges & Hf)] | (Hm & Hex)];
        [by left | right | right].
      * simpl in *. subst t. split; [left | eauto].
      * split; [by right | done].
    + intros [? | ([-> | Hm]%elem_of_cons & p & Hp & Hf)];
        [by left; left | left; right | right; eauto].
      split; [done |]. exists (p, n). split; [| done]. by apply elem_of_in_edges.
Qed.

(** The loops terminate and build exactly the frontiers of [frontier_edge]. *)
Lemma frontier_loops_spec fuel :
  length (vertices g) ≤ fuel →
  ∃ df', frontier_loops null_vertex fuel g idom ∅ = Some df' ∧
    ∀ k m, m ∈ df_at df' k ↔ ∃ p, (p, m) ∈ edges g ∧ frontier_edge g e m p k.
Proof.
  intros Hfuel. destruct (vertices_loop fuel (vertices g) Hfuel ∅) as (df' & Hl & Hdf').
  exists df'. split; [done |]. intros k m. rewrite Hdf'. split.
  - intros [Hin | [_ Hex]]; [| done].
    unfold df_at in Hin. rewrite lookup_empty in Hin. by apply not_elem_of_nil in Hin.
  - intros (p & Hp & Hf). right. split; [| eauto]. by apply (edge_vertices p m).
Qed.

Lemma frontier_loops_total fuel df :
  length (vertices g) ≤ fuel →
  is_Some (frontier_loops null_vertex fuel g idom df).
Proof.
  intros Hfuel. destruct (vertices_loop fuel (vertices g) Hfuel df) as (df' & Hl & _).
  by exists df'.
Qed.

End FrontierWalk.

(** ** A reference dominator routine *)

Section Reference.
Context {node : Type} `{Countable node}.
Variable null_vertex : node.
Implicit Types (g : graph node) (e u v k : node).

(** Among finitely many dominators of a reachable node one is dominated by
    all the others. *)
Lemma dominator_chain_bottom g e v (L : list node) :
  e ∈ vertices g → edges_closed g → reachable g e v →
  L ≠ [] → (∀ x, x ∈ L → dominates g e x v) →
  ∃ u, u ∈ L ∧ ∀ k, k ∈ L → dominates g e k u.
Proof.
  intros He Hcl Hr. induction L as [|x L IH]; [done |]. intros _ HL.
  destruct L as [|y L].
  - exists x. split; [left |]. intros k ->%list_elem_of_singleton. apply dominates_refl.
  - destruct IH as (u & Hu & Hall); [done | intros z Hz; apply HL; by right |].
    destruct (dominators_comparable g e He Hcl x u v) as [Hxu | Hux];
      [apply HL; left | apply HL; by right | done | |].
    + exists u. split; [by right |]. intros k [-> | Hk]%elem_of_cons; auto.
    + exists x. split; [left |]. intros k [-> | Hk]%elem_of_cons.
      * apply dominates_refl.
      * eapply dominates_trans; [by apply Hall | done].
Qed.

Lemma closest_dominator_exists g e v :
  e ∈ vertices g → edges_closed g → reachable g e v → v ≠ e →
  ∃ u, u ∈ vertices g ∧ closest_dominator g e v u.
Proof.
  intros He Hcl Hr Hne.
  set (L := filter (λ u, strictly_dominatesb g e u v = true) (vertices g)).
  assert (e ∈ L) as HeL.
  { apply list_elem_of_filter. split; [| done].
    apply strictly_dominatesb_spec; [done | done |]. split; [apply entry_dominates | done]. }
  destruct (dominator_chain_bottom g e v L He Hcl Hr) as (u & Hu & Hall).
  { intros HL. rewrite HL in HeL. by apply not_elem_of_nil in HeL. }
  { intros x [Hx _]%list_elem_of_filter.
    by apply strictly_dominatesb_spec in Hx as [? _]. }
  apply list_elem_of_filter in Hu as [Hsd Hu].
  exists u. split; [done |]. split; [done |]. apply Forall_forall. intros k Hk Hks.
  apply dominatesb_spec; [done | done |]. apply Hall. by apply list_elem_of_filter.
Qed.

Lemma closest_dominator_immediate g e v u :
  e ∈ vertices g → edges_closed g → reachable g e v →
  closest_dominator g e v u → immediate_dominator g e u v.
Proof.
  intros He Hcl Hr [Hsd Hall]. rewrite Forall_forall in Hall.
  apply strictly_dominatesb_spec in Hsd; [| done | done].
  split; [done |]. intros k Hk Hku [Huk _].
  assert (reachable g e k) as Hrk by (eapply dominator_reachable; [apply Hk | done]).
  apply Hku. apply (dominates_antisym g e); [| | done].
  - destruct Hsd as [Hd _]. by eapply dominator_reachable.
  - apply dominatesb_spec; [done | done |]. apply Hall.
    + by eapply reachable_in_vertices.
    + by apply strictly_dominatesb_spec.
Qed.

Lemma search_dominator_tree_correct g e :
  valid_view null_vertex g e →
  lt_correct_on null_vertex (search_dominator_tree null_vertex) g e.
Proof.
  intros (He & Hnull & Hcl). split.
  - intros v Hv Hr Hne. unfold search_dominator_tree.
    assert (reachableb g e v = true) as -> by by apply reachableb_spec.
    rewrite bool_decide_eq_true_2 by done. simpl.
    destruct (closest_dominator_exists g e v He Hcl Hr Hne) as (u & Hu & Hcd).
    destruct (filter (closest_dominator g e v) (vertices g)) as [|u' L] eqn:Hf.
    + assert (u ∈ filter (closest_dominator g e v) (vertices g)) as Hin
        by by apply list_elem_of_filter.
      rewrite Hf in Hin. by apply not_elem_of_nil in Hin.
    + simpl. apply closest_dominator_immediate; [done | done | done |].
      assert (u' ∈ filter (closest_dominator g e v) (vertices g)) as Hin
        by (rewrite Hf; left).
      by apply list_elem_of_filter in Hin as [? _].
  - unfold search_dominator_tree.
    rewrite (bool_decide_eq_false_2 (e ≠ e)) by (by intros ?).
    by rewrite andb_false_r.
  - intros v Hv Hnr. unfold search_dominator_tree.
    destruct (reachableb g e v) eqn:Hb; [| done].
    exfalso. apply Hnr. by apply reachableb_spec.
Qed.

(** The contract determines the routine on the vertices. *)
Lemma lt_correct_unique lt1 lt2 g e v :
  valid_view null_vertex g e →
  lt_correct_on null_vertex lt1 g e → lt_correct_on null_vertex lt2 g e →
  v ∈ vertices g → lt1 g e v = lt2 g e v.
Proof.
  intros (He & Hnull & Hcl) H1 H2 Hv.
  destruct (reachable_dec g e v He Hcl) as [Hr | Hnr].
  - destruct (decide (v = e)) as [-> | Hne].
    + by rewrite (lt_entry _ _ _ _ H1), (lt_entry _ _ _ _ H2).
    + eapply (immediate_dominator_unique g e He Hcl); [done | |].
      * by apply H1.
      * by apply H2.
  - by rewrite (lt_unreachable _ _ _ _ H1), (lt_unreachable _ _ _ _ H2).
Qed.

(** Two views with the same vertices, reachable nodes and dominators get
    the same map from a routine that is correct on both. *)
Lemma lt_correct_transfer lt_tree g1 g2 e v :
  valid_view null_vertex g1 e →
  (∀ x, x ∈ vertices g1 → x ∈ vertices g2) →
  (∀ x, reachable g2 e x ↔ reachable g1 e x) →
  (∀ x y, dominates g2 e x y ↔ dominates g1 e x y) →
  lt_correct_on null_vertex lt_tree g1 e → lt_correct_on null_vertex lt_tree g2 e →
  v ∈ vertices g1 → lt_tree g2 e v = lt_tree g1 e v.
Proof.
  intros Hvalid Hsub Hreach Hdom Hlt1 Hlt2 Hv.
  apply (lt_correct_unique (λ _ _, lt_tree g2 e) lt_tree g1 e v); [done | | done | done].
  split.
  - intros w Hw Hr Hne.
    destruct (lt_reachable _ _ _ _ Hlt2 w) as [[Hd Hdw] Himm];
      [by apply Hsub | by apply Hreach | done |].
    split; [split; [by apply Hdom | done] |].
    intros k [Hk Hkw] Hku [Huk Hne']. apply (Himm k); [| done |].
    + split; [by apply Hdom | done].
    + split; [by apply Hdom | done].
  - apply Hlt2.
  - intros w Hw Hnr. apply Hlt2; [by apply Hsub |]. by rewrite Hreach.
Qed.

End Reference.

(** ** Termination of the loops *)

Section Totality.
Context {node : Type} `{Countable node}.
Variable null_vertex : node.
Variable log_enabled : string → bool.
Variable lengauer_tarjan_dominator_tree : graph node → node → node → node.
Variables (g : graph node) (e : node).
Hypothesis valid : valid_view null_vertex g e.
Hypothesis lt_ok : lt_correct_on null_vertex lengauer_tarjan_dominator_tree g e.

Local Abbreviation idom :=
  (dominator_tree null_vertex log_enabled lengauer_tarjan_dominator_tree g e ∅).1.
Local Abbreviation idom_of := (idom_at null_vertex idom).
Local Abbreviation walk := (runner_walk null_vertex).

(** From any vertex and for any node [n] the walk leaves the loop within
    as many iterations as the graph has vertices. The list [s] holds the
    runners already visited. *)
Lemma runner_walk_total fuel n :
  ∀ r df (s : list node),
    NoDup s → (∀ x, x ∈ s → x ∈ vertices g) → (∀ x, x ∈ s → ¬ dominates g e x r) →
    length (vertices g) ≤ fuel + length s →
    r = null_vertex ∨ r ∈ vertices g →
    is_Some (walk fuel idom n r df).
Proof.
  pose proof (valid_entry null_vertex g e valid) as He.
  pose proof (valid_closed null_vertex g e valid) as Hcl.
  induction fuel as [|fuel IH]; intros r df s Hnd Hsub Hs Hfuel Hr;
    rewrite runner_walk_unfold; (case_decide as Hguard; [| done]);
    destruct Hguard as (Hrnull & _ & _);
    (destruct Hr as [? | Hr]; [done |]).
  - exfalso. assert (length (r :: s) ≤ length (vertices g)) as Hlen.
    { apply (nodup_vertices_length g).
      - apply NoDup_cons. split; [| done]. intros Hin. apply (Hs _ Hin), dominates_refl.
      - intros x [-> | Hx]%elem_of_cons; [done | by apply Hsub]. }
    simpl in *. lia.
  - destruct (reachable_dec g e r He Hcl) as [Hreach | Hnr].
    + destruct (decide (r = e)) as [-> | Hre].
      * rewrite idom_of_entry by done. by rewrite runner_walk_null.
      * destruct (idom_of_strict null_vertex log_enabled _ g e valid lt_ok r)
          as [Hdr Hner]; [done | done |].
        assert (reachable g e (idom_of r)) as Hr'
          by (eapply idom_of_reachable_node; done).
        apply (IH _ _ (r :: s)).
        -- apply NoDup_cons. split; [| done]. intros Hin.
           apply (Hs _ Hin), dominates_refl.
        -- intros x [-> | Hx]%elem_of_cons; [done | by apply Hsub].
        -- intros x [-> | Hx]%elem_of_cons Hd.
           ++ apply Hner. by apply (dominates_antisym g e).
           ++ apply (Hs _ Hx). by eapply dominates_trans.
        -- simpl. lia.
        -- right. by apply (reachable_in_vertices g e).
    + rewrite idom_of_unreachable by done. by rewrite runner_walk_null.
Qed.

(** More fuel does not change the outcome of a walk that has ended. *)
Lemma runner_walk_more_fuel fuel fuel' (im : gmap node node) n r df df' :
  walk fuel im n r df = Some df' → fuel ≤ fuel' → walk fuel' im n r df = Some df'.
Proof.
  revert fuel' r df. induction fuel as [|fuel IH]; intros fuel' r df;
    rewrite (runner_walk_unfold _ fuel'); cbn [runner_walk]; (case_decide; [| done]).
  - done.
  - intros Hw Hle. destruct fuel' as [|fuel']; [lia |]. apply IH; [done | lia].
Qed.

Lemma for_each_more_fuel {A S : Type} (body body' : A → S → option S) l :
  (∀ x s s', body x s = Some s' → body' x s = Some s') →
  ∀ s s', for_each l body s = Some s' → for_each l body' s = Some s'.
Proof.
  intros Hbody. induction l as [|x l IH]; intros s s'; simpl; [done |].
  destruct (body x s) as [s1|] eqn:Hx; simpl; [| done].
  rewrite (Hbody _ _ _ Hx). simpl. apply IH.
Qed.

Lemma frontier_loops_more_fuel fuel fuel' (im : gmap node node) df df' :
  frontier_loops null_vertex fuel g im df = Some df' → fuel ≤ fuel' →
  frontier_loops null_vertex fuel' g im df = Some df'.
Proof.
  intros Hl Hle. revert Hl. unfold frontier_loops. apply for_each_more_fuel.
  intros n s s'. apply for_each_more_fuel.
  intros a t t' Hw. by eapply runner_walk_more_fuel.
Qed.

End Totality.

(** ** The two entry points over [graph_algo_impl::dominance] *)

Section EntryPoints.
Context {node : Type} `{Countable node}.
Variable null_vertex : node.
Variable log_enabled : string → bool.
Variable lengauer_tarjan_dominator_tree : graph node → node → node → node.

Local Abbreviation dom_tree :=
  (dominator_tree null_vertex log_enabled lengauer_tarjan_dominator_tree).
Local Abbreviation impl :=
  (graph_algo_impl_dominance null_vertex log_enabled lengauer_tarjan_dominator_tree).

(** The frontier mapping is what the loops leave; the sink only receives. *)
Lemma graph_algo_impl_dominance_fst fuel g e df :
  fst <$> impl fuel g e df =
  frontier_loops null_vertex fuel g (dom_tree g e ∅).1 df.
Proof.
  unfold graph_algo_impl_dominance.
  destruct (dom_tree g e ∅) as [im out]. simpl.
  by destruct (frontier_loops null_vertex fuel g im df).
Qed.

Lemma graph_algo_impl_dominance_some fuel g e df df' :
  frontier_loops null_vertex fuel g (dom_tree g e ∅).1 df = Some df' →
  ∃ out, impl fuel g e df = Some (df', out).
Proof.
  intros Hl. unfold graph_algo_impl_dominance.
  destruct (dom_tree g e ∅) as [im out]. simpl in *. rewrite Hl. simpl. eauto.
Qed.

Lemma dominance_fst fuel g df :
  fst <$> dominance null_vertex log_enabled lengauer_tarjan_dominator_tree fuel g df =
  fst <$> impl fuel g (entry g) df.
Proof.
  unfold dominance. by destruct (impl fuel g (entry g) df) as [[??]|].
Qed.

Lemma post_dominance_fst fuel g df :
  has_exit g = true →
  fst <$> post_dominance null_vertex log_enabled lengauer_tarjan_dominator_tree fuel g df =
  fst <$> impl fuel (cfg_rev g) (exit g) df.
Proof.
  intros Hex. unfold post_dominance. rewrite Hex. simpl.
  by destruct (impl fuel (cfg_rev g) (exit g) df) as [[??]|].
Qed.

End EntryPoints.

Lemma diamond_valid : valid_view 0 diamond 1.
Proof. by apply (bool_decide_unpack _). Qed.

Lemma diamond_reversed_valid : valid_view 0 (cfg_rev diamond) 4.
Proof. by apply (bool_decide_unpack _). Qed.

Lemma chain_valid : valid_view 0 chain 1.
Proof. by apply (bool_decide_unpack _). Qed.

Lemma loop_graph_valid : valid_view 0 loop_graph 1.
Proof. by apply (bool_decide_unpack _). Qed.

Lemma stray_graph_valid : valid_view 0 stray_graph 1.
Proof. by apply (bool_decide_unpack _). Qed.

(** ** Properties of the computed mappings *)

Section Properties.
Context {node : Type} `{Countable node}.
Variable null_vertex : node.
Variable lengauer_tarjan_dominator_tree : graph node → node → node → node.

Local Abbreviation lt_tree := lengauer_tarjan_dominator_tree.
Local Abbreviation dom_tree := (dominator_tree null_vertex).
Local Abbreviation impl := (graph_algo_impl_dominance null_vertex).

(** C2. For a graph whose entry is a vertex, [dominator_tree] fills the
    mapping with one entry per vertex: the entry maps to the sentinel, a
    reachable node other than the entry maps to a vertex different from
    itself that dominates it, and an unreachable vertex maps to the
    sentinel. *)
Theorem dominator_tree_mapping log_enabled g e :
  valid_view null_vertex g e → lt_correct_on null_vertex lt_tree g e →
  dom (dom_tree log_enabled lt_tree g e ∅).1 = list_to_set (vertices g) ∧
  (dom_tree log_enabled lt_tree g e ∅).1 !! e = Some null_vertex ∧
  (∀ v, reachable g e v → v ≠ e →
     ∃ d, (dom_tree log_enabled lt_tree g e ∅).1 !! v = Some d ∧
          d ∈ vertices g ∧ d ≠ null_vertex ∧ d ≠ v ∧ dominates g e d v) ∧
  (∀ v, v ∈ vertices g → ¬ reachable g e v →
     (dom_tree log_enabled lt_tree g e ∅).1 !! v = Some null_vertex).
Proof.
  intros Hvalid Hlt. pose proof Hvalid as (He & Hnull & Hcl).
  split; [apply dominator_tree_dom |]. split; [| split].
  - rewrite dominator_tree_lookup, decide_True by done. f_equal. apply Hlt.
  - intros v Hr Hne.
    assert (v ∈ vertices g) as Hv by by apply (reachable_in_vertices g e).
    destruct (lt_reachable _ _ _ _ Hlt v Hv Hr Hne) as [[Hd Hdv] _].
    assert (lt_tree g e v ∈ vertices g) as Hdvert.
    { apply (reachable_in_vertices g e); [done | done |].
      eapply dominator_reachable; [apply Hd | done]. }
    exists (lt_tree g e v). rewrite dominator_tree_lookup, decide_True by done.
    repeat split; [done | | done | done]. intros Heq. by rewrite Heq in Hdvert.
  - intros v Hv Hnr. rewrite dominator_tree_lookup, decide_True by done.
    f_equal. by apply Hlt.
Qed.

(** C4. Without an exit node [post_dominance] returns at once: the mapping
    it was given comes back as it is, so an empty one stays empty; no loop
    iteration is spent and nothing reaches the sink, whatever is enabled. *)
Theorem post_dominance_without_exit log_enabled fuel g :
  has_exit g = false →
  post_dominance null_vertex log_enabled lt_tree fuel g ∅ = Some (∅, []) ∧
  ∀ rdf, post_dominance null_vertex log_enabled lt_tree 0 g rdf = Some (rdf, []).
Proof. intros Hex. unfold post_dominance. by rewrite Hex. Qed.

(** On a valid view the run returns, whatever mapping it is given. *)
Lemma graph_algo_impl_dominance_returns log_enabled g e fuel df :
  valid_view null_vertex g e → lt_correct_on null_vertex lt_tree g e →
  length (vertices g) ≤ fuel →
  is_Some (impl log_enabled lt_tree fuel g e df).
Proof.
  intros Hvalid Hlt Hfuel.
  destruct (frontier_loops_total null_vertex log_enabled lt_tree g e Hvalid Hlt fuel df
              Hfuel) as [df' Hl].
  destruct (graph_algo_impl_dominance_some _ log_enabled _ _ _ _ _ _ Hl) as [out Hout].
  by rewrite Hout.
Qed.

(** C7. On a graph whose entry is a vertex, connected or not, cyclic or
    not, every runner walk leaves its loop within as many iterations as
    there are vertices, [graph_algo_impl::dominance] returns a result, and
    the result is the same for every larger bound. *)
Theorem dominance_total log_enabled g e fuel :
  valid_view null_vertex g e → lt_correct_on null_vertex lt_tree g e →
  length (vertices g) ≤ fuel →
  (∀ n r df, r = null_vertex ∨ r ∈ vertices g →
     is_Some (runner_walk null_vertex fuel (dom_tree log_enabled lt_tree g e ∅).1 n r df)) ∧
  (∀ df, is_Some (impl log_enabled lt_tree fuel g e df)) ∧
  (∀ df fuel', fuel ≤ fuel' →
     impl log_enabled lt_tree fuel' g e df = impl log_enabled lt_tree fuel g e df).
Proof.
  intros Hvalid Hlt Hfuel. split; [| split].
  - intros n r df Hr.
    apply (runner_walk_total null_vertex log_enabled lt_tree g e Hvalid Hlt fuel n r df []);
      [apply NoDup_nil_2 | by intros x ?%not_elem_of_nil | by intros x ?%not_elem_of_nil
      | simpl; lia | done].
  - intros df. by apply graph_algo_impl_dominance_returns.
  - intros df fuel' Hle.
    destruct (frontier_loops_total null_vertex log_enabled lt_tree g e Hvalid Hlt fuel df Hfuel)
      as [df' Hl].
    pose proof (frontier_loops_more_fuel null_vertex g _ _ _ _ _ Hl Hle) as Hl'.
    unfold graph_algo_impl_dominance.
    destruct (dom_tree log_enabled lt_tree g e ∅) as [im out]. simpl in *.
    by rewrite Hl, Hl'.
Qed.

(** An empty mapping satisfies both invariants of the pushes. *)
Lemma graph_algo_impl_dominance_invariants log_enabled g e fuel df out :
  impl log_enabled lt_tree fuel g e ∅ = Some (df, out) →
  frontiers_nodup df ∧ frontiers_nonempty df.
Proof.
  intros Hrun.
  assert (fst <$> impl log_enabled lt_tree fuel g e ∅ = Some df) as Hl by by rewrite Hrun.
  rewrite graph_algo_impl_dominance_fst in Hl. split.
  - eapply (frontier_loops_preserves null_vertex frontiers_nodup); [| done |].
    + intros r n d. apply push_frontier_nodup.
    + intros k. unfold df_at. rewrite lookup_empty. apply NoDup_nil_2.
  - eapply (frontier_loops_preserves null_vertex frontiers_nonempty); [| done |].
    + intros r n d. apply push_frontier_nonempty.
    + intros k fr. by rewrite lookup_empty.
Qed.

(** C9. No frontier vector of a mapping returned by
    [graph_algo_impl::dominance] holds a node twice, whatever the
    dominator routine computed; and on a graph whose entry is a vertex a
    mapping is returned. *)
Theorem frontier_has_no_duplicates log_enabled g e :
  (∀ fuel df out, impl log_enabled lt_tree fuel g e ∅ = Some (df, out) →
     ∀ k, NoDup (df_at df k)) ∧
  (valid_view null_vertex g e → lt_correct_on null_vertex lt_tree g e →
   ∀ fuel, length (vertices g) ≤ fuel → is_Some (impl log_enabled lt_tree fuel g e ∅)).
Proof.
  split.
  - intros fuel df out Hrun. by eapply graph_algo_impl_dominance_invariants.
  - intros Hvalid Hlt fuel Hfuel. by apply graph_algo_impl_dominance_returns.
Qed.

(** C10. Called with an empty mapping, [graph_algo_impl::dominance]
    returns a mapping in which every key holds a non-empty vector: a key
    is created only when a node is pushed under it. This holds whatever
    the dominator routine computed; and on a graph whose entry is a vertex
    a mapping is returned. *)
Theorem frontier_keys_nonempty log_enabled g e :
  (∀ fuel df out, impl log_enabled lt_tree fuel g e ∅ = Some (df, out) →
     ∀ k fr, df !! k = Some fr → fr ≠ []) ∧
  (valid_view null_vertex g e → lt_correct_on null_vertex lt_tree g e →
   ∀ fuel, length (vertices g) ≤ fuel → is_Some (impl log_enabled lt_tree fuel g e ∅)).
Proof.
  split.
  - intros fuel df out Hrun. by eapply graph_algo_impl_dominance_invariants.
  - intros Hvalid Hlt fuel Hfuel. by apply graph_algo_impl_dominance_returns.
Qed.

End Properties.

(** ** The frontier relation *)

Section Frontiers.
Context {node : Type} `{Countable node}.
Variable null_vertex : node.
Variable lengauer_tarjan_dominator_tree : graph node → node → node → node.

Local Abbreviation lt_tree := lengauer_tarjan_dominator_tree.
Local Abbreviation dom_tree := (dominator_tree null_vertex).
Local Abbreviation impl := (graph_algo_impl_dominance null_vertex).

(** The mapping returned for an empty one, described edge by edge. *)
Lemma graph_algo_impl_dominance_spec log_enabled g e fuel :
  valid_view null_vertex g e → lt_correct_on null_vertex lt_tree g e →
  length (vertices g) ≤ fuel →
  ∃ df out, impl log_enabled lt_tree fuel g e ∅ = Some (df, out) ∧
    frontiers_nonempty df ∧
    ∀ k m, m ∈ df_at df k ↔ ∃ p, (p, m) ∈ edges g ∧ frontier_edge g e m p k.
Proof.
  intros Hvalid Hlt Hfuel.
  destruct (frontier_loops_spec null_vertex log_enabled lt_tree g e Hvalid Hlt fuel Hfuel)
    as (df & Hl & Hdf).
  destruct (graph_algo_impl_dominance_some _ _ _ _ _ _ _ _ Hl) as [out Hout].
  exists df, out. split; [done |]. split; [| done].
  eapply (frontier_loops_preserves null_vertex frontiers_nonempty); [| done |].
  - intros r n d. apply push_frontier_nonempty.
  - intros k fr. by rewrite lookup_empty.
Qed.

(** C1, for two different nodes. When [m] is not [k] and every
    predecessor of [m] is reachable from the entry, [m] is in the frontier
    of [k] exactly when [k] does not strictly dominate [m] and [k]
    dominates some predecessor of [m]. Nothing is said of [m = k]. *)
Theorem frontier_characterisation log_enabled g e fuel :
  valid_view null_vertex g e → lt_correct_on null_vertex lt_tree g e →
  length (vertices g) ≤ fuel →
  ∃ df out, impl log_enabled lt_tree fuel g e ∅ = Some (df, out) ∧
    ∀ m k, m ≠ k → (∀ p, (p, m) ∈ edges g → reachable g e p) →
      (m ∈ df_at df k ↔
       ¬ strictly_dominates g e k m ∧
       ∃ p, (p, m) ∈ edges g ∧ dominates g e k p).
Proof.
  intros Hvalid Hlt Hfuel.
  destruct (graph_algo_impl_dominance_spec log_enabled g e fuel Hvalid Hlt Hfuel)
    as (df & out & Hout & _ & Hdf).
  exists df, out. split; [done |]. intros m k Hmk Hpreds. rewrite Hdf.
  unfold frontier_edge. split.
  - intros (p & Hp & Hkm & [(Hr & Hd & Hnsd) | (Hnr & _)]).
    + split; [done |]. eauto.
    + destruct (Hnr (Hpreds _ Hp)).
  - intros (Hnsd & p & Hp & Hd). exists p. split; [done |].
    split; [congruence |]. left. split; [by apply Hpreds | done].
Qed.

(** C5, as the code has it. The returned mapping has a key for [k]
    exactly when the walk of some edge of the graph passes [k], that is
    when the frontier of [k] is not empty; such a key is a vertex and
    holds a non-empty vector. A node whose frontier is empty has no key,
    and its frontier reads as the empty vector. *)
Theorem keys_of_frontier_mapping log_enabled g e fuel :
  valid_view null_vertex g e → lt_correct_on null_vertex lt_tree g e →
  length (vertices g) ≤ fuel →
  ∃ df out, impl log_enabled lt_tree fuel g e ∅ = Some (df, out) ∧
    ∀ k, (is_Some (df !! k) ↔
          ∃ m p, (p, m) ∈ edges g ∧ frontier_edge g e m p k) ∧
         (∀ m, m ∈ df_at df k ↔ ∃ p, (p, m) ∈ edges g ∧ frontier_edge g e m p k) ∧
         (is_Some (df !! k) ↔ df_at df k ≠ []) ∧
         (is_Some (df !! k) → k ∈ vertices g).
Proof.
  intros Hvalid Hlt Hfuel.
  destruct (graph_algo_impl_dominance_spec log_enabled g e fuel Hvalid Hlt Hfuel)
    as (df & out & Hout & Hne & Hdf).
  exists df, out. split; [done |]. intros k.
  assert (is_Some (df !! k) ↔ df_at df k ≠ []) as Hkey.
  { unfold df_at. split.
    - intros [fr Hfr]. rewrite Hfr. simpl. by eapply Hne.
    - destruct (df !! k); [by eauto | done]. }
  assert (df_at df k ≠ [] ↔ ∃ m p, (p, m) ∈ edges g ∧ frontier_edge g e m p k)
    as Hwalk.
  { split.
    - destruct (df_at df k) as [|m fr] eqn:Hfr; [done |]. intros _.
      assert (m ∈ df_at df k) as Hm by (rewrite Hfr; left).
      apply Hdf in Hm as (p & Hp & Hfe). by exists m, p.
    - intros (m & p & Hp & Hfe) Hnil.
      assert (m ∈ df_at df k) as Hm by (apply Hdf; eauto).
      rewrite Hnil in Hm. by apply not_elem_of_nil in Hm. }
  split; [by rewrite Hkey |]. split; [apply Hdf |]. split; [done |].
  intros Hk%Hkey.
  destruct (df_at df k) as [|m fr] eqn:Hfr; [done |].
  assert (m ∈ df_at df k) as Hm by (rewrite Hfr; left).
  apply Hdf in Hm as (p & Hp & _ & [(Hr & Hd & _) | (_ & ->)]).
  - apply (reachable_vertex null_vertex g e Hvalid). by eapply dominator_reachable.
  - by apply (edge_vertices null_vertex g e Hvalid p m).
Qed.

(** No node is in its own frontier, whatever bound the run was given. *)
Lemma frontier_irreflexive log_enabled g e fuel df out :
  valid_view null_vertex g e → lt_correct_on null_vertex lt_tree g e →
  impl log_enabled lt_tree fuel g e ∅ = Some (df, out) →
  ∀ m, m ∉ df_at df m.
Proof.
  intros Hvalid Hlt Hrun m Hm.
  destruct (graph_algo_impl_dominance_spec log_enabled g e
              (fuel `max` length (vertices g)) Hvalid Hlt)
    as (df' & out' & Hout' & _ & Hdf'); [lia |].
  assert (fst <$> impl log_enabled lt_tree (fuel `max` length (vertices g)) g e ∅ = Some df)
    as Hbig.
  { rewrite graph_algo_impl_dominance_fst.
    apply frontier_loops_more_fuel with (fuel := fuel); [| lia].
    rewrite <- graph_algo_impl_dominance_fst. by rewrite Hrun. }
  rewrite Hout' in Hbig. simpl in Hbig. injection Hbig as ->.
  apply Hdf' in Hm as (p & _ & Hne & _). done.
Qed.

End Frontiers.

(** ** Determinism *)

Section Determinism.
Context {node : Type} `{Countable node}.
Variable null_vertex : node.
Variable lengauer_tarjan_dominator_tree : graph node → node → node → node.

Local Abbreviation lt_tree := lengauer_tarjan_dominator_tree.
Local Abbreviation dom_tree := (dominator_tree null_vertex).
Local Abbreviation impl := (graph_algo_impl_dominance null_vertex).

Lemma path_same_edges (g1 g2 : graph node) e l v :
  edges g1 ≡ₚ edges g2 → path_to g1 e l v → path_to g2 e l v.
Proof.
  intros Hperm. induction 1 as [|l p v Hp IH Hedge]; [constructor |].
  econstructor; [done |]. by rewrite <- Hperm.
Qed.

Lemma reachable_same_edges (g1 g2 : graph node) e v :
  edges g1 ≡ₚ edges g2 → reachable g2 e v ↔ reachable g1 e v.
Proof.
  intros Hperm. split; intros [l Hl]; exists l;
    by eapply path_same_edges.
Qed.

Lemma dominates_same_edges (g1 g2 : graph node) e u v :
  edges g1 ≡ₚ edges g2 → dominates g2 e u v ↔ dominates g1 e u v.
Proof.
  intros Hperm. split; intros Hd l Hl; apply Hd; by eapply path_same_edges.
Qed.

Lemma frontier_edge_same_edges (g1 g2 : graph node) e n p k :
  edges g1 ≡ₚ edges g2 → frontier_edge g2 e n p k ↔ frontier_edge g1 e n p k.
Proof.
  intros Hperm. unfold frontier_edge, strictly_dominates.
  by rewrite !(dominates_same_edges g1 g2), !(reachable_same_edges g1 g2).
Qed.

Lemma frontier_loops_same_view fuel (g1 g2 : graph node) (im : gmap node node) df :
  vertices g1 = vertices g2 → edges g1 = edges g2 →
  frontier_loops null_vertex fuel g1 im df = frontier_loops null_vertex fuel g2 im df.
Proof. intros Hv He. unfold frontier_loops, in_edges. by rewrite Hv, He. Qed.

(** C8. Two runs on the same graph and entry build the same dominator
    mapping and the same frontiers, whatever the sink has enabled in each
    and whatever sufficient bound each is given: the frontiers hold the
    same nodes even when the two runs enumerate the vertices and the
    edges in different orders, and they are the same vectors when the
    enumerations agree. *)
Theorem dominance_deterministic log1 log2 (g1 g2 : graph node) e fuel1 fuel2 :
  vertices g1 ≡ₚ vertices g2 → edges g1 ≡ₚ edges g2 →
  valid_view null_vertex g1 e →
  lt_correct_on null_vertex lt_tree g1 e → lt_correct_on null_vertex lt_tree g2 e →
  length (vertices g1) ≤ fuel1 → length (vertices g2) ≤ fuel2 →
  (dom_tree log1 lt_tree g1 e ∅).1 = (dom_tree log2 lt_tree g2 e ∅).1 ∧
  ∃ df1 df2,
    fst <$> impl log1 lt_tree fuel1 g1 e ∅ = Some df1 ∧
    fst <$> impl log2 lt_tree fuel2 g2 e ∅ = Some df2 ∧
    (∀ k m, m ∈ df_at df1 k ↔ m ∈ df_at df2 k) ∧
    (vertices g1 = vertices g2 → edges g1 = edges g2 → df1 = df2).
Proof.
  intros Hverts Hedges Hvalid1 Hlt1 Hlt2 Hf1 Hf2.
  assert (valid_view null_vertex g2 e) as Hvalid2.
  { destruct Hvalid1 as (He & Hnull & Hcl). split; [by rewrite <- Hverts |].
    split; [by rewrite <- Hverts |]. unfold edges_closed in *.
    rewrite Forall_forall in *. intros a Ha. rewrite <- Hverts. apply Hcl.
    by rewrite Hedges. }
  assert ((dom_tree log1 lt_tree g1 e ∅).1 = (dom_tree log2 lt_tree g2 e ∅).1) as Hidom.
  { apply map_eq. intros v. rewrite !dominator_tree_lookup.
    destruct (decide (v ∈ vertices g1)) as [Hv | Hv].
    - rewrite decide_True by (by rewrite <- Hverts). f_equal. symmetry.
      apply (lt_correct_transfer null_vertex lt_tree g1 g2 e v); try done.
      + intros x. by rewrite Hverts.
      + intros x. by apply reachable_same_edges.
      + intros x y. by apply dominates_same_edges.
    - by rewrite decide_False by (by rewrite <- Hverts). }
  split; [done |].
  destruct (graph_algo_impl_dominance_spec null_vertex lt_tree log1 g1 e fuel1 Hvalid1 Hlt1 Hf1)
    as (df1 & out1 & Hrun1 & _ & Hdf1).
  destruct (graph_algo_impl_dominance_spec null_vertex lt_tree log2 g2 e fuel2 Hvalid2 Hlt2 Hf2)
    as (df2 & out2 & Hrun2 & _ & Hdf2).
  exists df1, df2. rewrite Hrun1, Hrun2. split; [done |]. split; [done |]. split.
  - intros k m. rewrite Hdf1, Hdf2. split; intros (p & Hp & Hfe); exists p.
    + split; [by rewrite <- Hedges | by apply (frontier_edge_same_edges g1 g2)].
    + split; [by rewrite Hedges | by apply (frontier_edge_same_edges g1 g2)].
  - intros Hv He.
    assert (fst <$> impl log1 lt_tree fuel1 g1 e ∅ = Some df1) as H1 by by rewrite Hrun1.
    assert (fst <$> impl log2 lt_tree fuel2 g2 e ∅ = Some df2) as H2 by by rewrite Hrun2.
    rewrite graph_algo_impl_dominance_fst in H1, H2.
    rewrite <- Hidom, <- (frontier_loops_same_view _ g1 g2) in H2 by done.
    apply (frontier_loops_more_fuel null_vertex g1 _ (fuel1 `max` fuel2)) in H1; [| lia].
    apply (frontier_loops_more_fuel null_vertex g1 _ (fuel1 `max` fuel2)) in H2; [| lia].
    congruence.
Qed.

End Determinism.

(** ** Self-loops *)

Section SelfLoop.
Context {node : Type} `{Countable node}.
Variable null_vertex : node.
Variable lengauer_tarjan_dominator_tree : graph node → node → node → node.
Variables (g : graph node) (e n : node) (i : nat).

Local Abbreviation lt_tree := lengauer_tarjan_dominator_tree.
Local Abbreviation g' := (add_self_loop i n g).

Lemma elem_of_add_self_loop (a : edge node) :
  a ∈ edges g' ↔ a = (n, n) ∨ a ∈ edges g.
Proof.
  simpl. rewrite <- (take_drop i (edges g)) at 3.
  rewrite !elem_of_app, elem_of_cons. tauto.
Qed.

Lemma path_add_self_loop l v : path_to g e l v → path_to g' e l v.
Proof.
  induction 1 as [|l p v Hp IH Hedge]; [constructor |].
  econstructor; [done |]. apply elem_of_add_self_loop. by right.
Qed.

(** A path through the loop edge has a path of the original graph inside. *)
Lemma path_drop_self_loop l v :
  path_to g' e l v → ∃ l', path_to g e l' v ∧ l' ⊆ l.
Proof.
  induction 1 as [|l p v Hp (l' & Hl' & Hsub) Hedge].
  - exists [e]. split; [constructor | done].
  - apply elem_of_add_self_loop in Hedge as [[= -> ->] | Hedge].
    + exists l'. split; [done |]. intros x Hx. right. by apply Hsub.
    + exists (v :: l'). split; [by econstructor |].
      intros x [-> | Hx]%elem_of_cons; [left | right; by apply Hsub].
Qed.

Lemma reachable_add_self_loop v : reachable g' e v ↔ reachable g e v.
Proof.
  split.
  - intros [l (l' & Hl' & _)%path_drop_self_loop]. by exists l'.
  - intros [l Hl]. exists l. by apply path_add_self_loop.
Qed.

Lemma dominates_add_self_loop u v : dominates g' e u v ↔ dominates g e u v.
Proof.
  split.
  - intros Hd l Hl. by apply Hd, path_add_self_loop.
  - intros Hd l (l' & Hl' & Hsub)%path_drop_self_loop. by apply Hsub, Hd.
Qed.

Lemma valid_add_self_loop :
  valid_view null_vertex g e → n ∈ vertices g → valid_view null_vertex g' e.
Proof.
  intros (He & Hnull & Hcl) Hn. split; [done |]. split; [done |].
  unfold edges_closed in *. rewrite Forall_forall in *.
  intros a [-> | Ha]%elem_of_add_self_loop; [done | by apply Hcl].
Qed.

(** The routine, being correct on both graphs, returns the same map. *)
Lemma lt_add_self_loop v :
  valid_view null_vertex g e →
  lt_correct_on null_vertex lt_tree g e → lt_correct_on null_vertex lt_tree g' e →
  v ∈ vertices g → lt_tree g' e v = lt_tree g e v.
Proof.
  intros Hvalid Hlt Hlt' Hv.
  apply (lt_correct_transfer null_vertex lt_tree g g' e v); try done.
  - apply reachable_add_self_loop.
  - apply dominates_add_self_loop.
Qed.

Lemma for_each_app {A S : Type} (body : A → S → option S) l1 l2 s :
  for_each (l1 ++ l2) body s = for_each l1 body s ≫= for_each l2 body.
Proof.
  revert s. induction l1 as [|x l1 IH]; intros s; simpl; [done |].
  destruct (body x s); simpl; [apply IH | done].
Qed.

Lemma for_each_ext {A S : Type} (body body' : A → S → option S) l s :
  (∀ x t, x ∈ l → body x t = body' x t) → for_each l body s = for_each l body' s.
Proof.
  revert s. induction l as [|x l IH]; intros s Hext; simpl; [done |].
  rewrite (Hext x s) by left. destruct (body' x s); simpl; [| done].
  apply IH. intros y t Hy. apply Hext. by right.
Qed.

(** The walk of the loop edge changes nothing, so the loops over the two
    graphs do the same. *)
Lemma frontier_loops_add_self_loop fuel (im : gmap node node) df :
  frontier_loops null_vertex fuel g' im df = frontier_loops null_vertex fuel g im df.
Proof.
  unfold frontier_loops. change (vertices g') with (vertices g).
  apply for_each_ext. intros v t _. unfold in_edges. simpl.
  rewrite <- (take_drop i (edges g)) at 3.
  rewrite !filter_app, filter_cons. case_decide as Hv; [| done].
  simpl in Hv. subst v. rewrite !for_each_app. simpl.
  destruct (for_each _ _ t) as [t'|]; simpl; [| done].
  unfold source at 1. simpl. by rewrite runner_walk_self.
Qed.

(** C6. A self-loop on [n] adds nothing to any frontier: its walk stops
    before the first iteration, the frontier mapping is the one of the
    graph without the loop, [n] is not in its own frontier, and the
    dominator mapping, so the immediate dominator of [n], is unchanged. *)
Theorem self_loop_contributes_nothing log_enabled :
  valid_view null_vertex g e → n ∈ vertices g →
  lt_correct_on null_vertex lt_tree g e → lt_correct_on null_vertex lt_tree g' e →
  (∀ fuel im df, runner_walk null_vertex fuel im n n df = Some df) ∧
  (dominator_tree null_vertex log_enabled lt_tree g' e ∅).1 =
    (dominator_tree null_vertex log_enabled lt_tree g e ∅).1 ∧
  (∀ fuel df,
     fst <$> graph_algo_impl_dominance null_vertex log_enabled lt_tree fuel g' e df =
     fst <$> graph_algo_impl_dominance null_vertex log_enabled lt_tree fuel g e df) ∧
  (∀ fuel df out,
     graph_algo_impl_dominance null_vertex log_enabled lt_tree fuel g' e ∅ = Some (df, out) →
     n ∉ df_at df n).
Proof.
  intros Hvalid Hn Hlt Hlt'.
  assert ((dominator_tree null_vertex log_enabled lt_tree g' e ∅).1 =
          (dominator_tree null_vertex log_enabled lt_tree g e ∅).1) as Hidom.
  { apply map_eq. intros v. rewrite !dominator_tree_lookup.
    change (vertices g') with (vertices g). case_decide; [| done].
    f_equal. by apply lt_add_self_loop. }
  split; [intros; apply runner_walk_self |]. split; [done |]. split.
  - intros fuel df. rewrite !graph_algo_impl_dominance_fst, Hidom.
    apply frontier_loops_add_self_loop.
  - intros fuel df out Hrun.
    eapply frontier_irreflexive; [by apply valid_add_self_loop | done | done].
Qed.

End SelfLoop.

(** ** Post-dominance *)

(** On a valid view the map of a correct routine is the one found by
    exhaustive search, which evaluates. *)
Lemma lt_correct_search {node : Type} `{Countable node} (null_vertex : node)
    (lt_tree : graph node → node → node → node) g e v :
  valid_view null_vertex g e → lt_correct_on null_vertex lt_tree g e →
  v ∈ vertices g → lt_tree g e v = search_dominator_tree null_vertex g e v.
Proof.
  intros Hvalid Hlt Hv. apply (lt_correct_unique null_vertex); [done | done | | done].
  by apply search_dominator_tree_correct.
Qed.

(** ** The header run on the example graphs *)

Local Abbreviation search := (search_dominator_tree 0).

Example diamond_idom :
  (dominator_tree 0 silent search diamond 1 ∅).1 =
  {[ 1 := 0; 2 := 1; 3 := 1; 4 := 1 ]}.
Proof. by vm_compute. Qed.

Example diamond_frontiers :
  fst <$> dominance 0 silent search 4 diamond ∅ = Some {[ 2 := [4]; 3 := [4] ]}.
Proof. by vm_compute. Qed.

Example diamond_diagnostics :
  snd <$> dominance 0 verbose search 4 diamond ∅ =
  Some [MsgBanner "Dominance Frontiers"; MsgNoDom 1; MsgIdom 1 2; MsgIdom 1 3;
        MsgIdom 1 4; MsgFrontier 2 [4]; MsgFrontier 3 [4]].
Proof. by vm_compute. Qed.

Example chain_idom :
  (dominator_tree 0 silent search chain 1 ∅).1 = {[ 1 := 0; 2 := 1; 3 := 2 ]}.
Proof. by vm_compute. Qed.

Example chain_frontiers :
  fst <$> dominance 0 silent search 3 chain ∅ = Some ∅.
Proof. by vm_compute. Qed.

Example diamond_post_frontiers :
  fst <$> post_dominance 0 silent search 4 diamond ∅ = Some {[ 2 := [1]; 3 := [1] ]}.
Proof. by vm_compute. Qed.

Example loop_graph_frontiers :
  fst <$> dominance 0 silent search 3 loop_graph ∅ = Some {[ 3 := [2] ]}.
Proof. by vm_compute. Qed.

Example stray_graph_frontiers :
  fst <$> dominance 0 silent search 4 stray_graph ∅ = Some {[ 4 := [2] ]}.
Proof. by vm_compute. Qed.

(** A walk cut short: climbing from 3 to the entry of the chain takes two
    iterations. *)
Example walk_out_of_fuel :
  runner_walk 0 1 (dominator_tree 0 silent search chain 1 ∅).1 1 3 ∅ = None ∧
  runner_walk 0 2 (dominator_tree 0 silent search chain 1 ∅).1 1 3 ∅ =
    Some {[ 3 := [1]; 2 := [1] ]}.
Proof. by vm_compute. Qed.

(** At a loop header the code departs from the definition of the frontier
    in the header's opening comment and from the loop of Cooper and
    Torczon that it cites. In 1 -> 2, 2 -> 3, 3 -> 2 the node 2 does not
    strictly dominate itself and dominates its predecessor 3, yet the walk
    of the back edge 3 -> 2 stops on [runner != n] before it pushes 2 into
    its own vector. *)
Lemma frontier_definition_fails_at_loop_header :
  ∃ df out,
    graph_algo_impl_dominance 0 silent search 3 loop_graph 1 ∅ = Some (df, out) ∧
    ¬ (2 ∈ df_at df 2 ↔
       ¬ strictly_dominates loop_graph 1 2 2 ∧
       ∃ p, (p, 2) ∈ edges loop_graph ∧ dominates loop_graph 1 2 p).
Proof.
  eexists _, _. split; [vm_compute; reflexivity |].
  intros [_ Hiff].
  assert (2 ∈ @nil nat) as Hin; [| by apply not_elem_of_nil in Hin].
  apply Hiff. split; [by intros [_ ?] |].
  exists 3. split; [by apply (bool_decide_unpack _) |].
  apply dominatesb_spec; [apply loop_graph_valid | apply loop_graph_valid | by vm_compute].
Qed.

(** C1 fails where a predecessor is not reachable from the entry, for the
    definition by paths then holds vacuously: in [stray_graph] node 5
    does not strictly dominate node 2 and dominates its unreachable
    predecessor 4, yet the walk from 4 stops on the sentinel stored for 4
    and 2 is not in the frontier of 5. *)
Lemma frontier_definition_fails_at_unreachable_predecessor :
  ∃ df out,
    graph_algo_impl_dominance 0 silent search 4 stray_graph 1 ∅ = Some (df, out) ∧
    ¬ (2 ∈ df_at df 5 ↔
       ¬ strictly_dominates stray_graph 1 5 2 ∧
       ∃ p, (p, 2) ∈ edges stray_graph ∧ dominates stray_graph 1 5 p).
Proof.
  eexists _, _. split; [vm_compute; reflexivity |].
  intros [_ Hiff].
  assert (2 ∈ @nil nat) as Hin; [| by apply not_elem_of_nil in Hin].
  apply Hiff. split.
  - intros [Hd _].
    apply dominatesb_spec in Hd; [| apply stray_graph_valid | apply stray_graph_valid].
    by vm_compute in Hd.
  - exists 4. split; [by apply (bool_decide_unpack _) |].
    apply dominatesb_spec;
      [apply stray_graph_valid | apply stray_graph_valid | by vm_compute].
Qed.

(** C5 fails on the diamond: the entry A, which has no predecessor, and D
    have no key in the returned mapping. *)
Lemma frontier_mapping_lacks_keys :
  ∃ df out,
    graph_algo_impl_dominance 0 silent search 4 diamond 1 ∅ = Some (df, out) ∧
    in_edges 1 diamond = [] ∧
    ¬ (∀ v, v ∈ vertices diamond → is_Some (df !! v)).
Proof.
  eexists _, _. split; [vm_compute; reflexivity |]. split; [done |].
  intros Hall. destruct (Hall 1) as [fr Hfr]; [by apply (bool_decide_unpack _) |].
  by vm_compute in Hfr.
Qed.

(** ** The theorems at concrete graphs *)

Lemma dominator_tree_mapping_witness :
  valid_view 0 diamond 1 ∧
  (dominator_tree 0 silent search diamond 1 ∅).1 !! 1 = Some 0 ∧
  ∀ v, reachable diamond 1 v → v ≠ 1 →
    ∃ d, (dominator_tree 0 silent search diamond 1 ∅).1 !! v = Some d ∧
         d ∈ vertices diamond ∧ d ≠ 0 ∧ d ≠ v ∧ dominates diamond 1 d v.
Proof.
  split; [by apply (bool_decide_unpack _) |].
  pose proof (dominator_tree_mapping 0 search silent diamond 1) as Hthm.
  destruct Hthm as (_ & He & Hr & _);
    [by apply (bool_decide_unpack _)
    | apply search_dominator_tree_correct; by apply (bool_decide_unpack _) |].
  split; [exact He | exact Hr].
Defined.

Lemma post_dominance_without_exit_witness :
  has_exit loop_graph = false ∧
  post_dominance 0 verbose search 3 loop_graph ∅ = Some (∅, []).
Proof.
  split; [reflexivity |].
  apply (post_dominance_without_exit 0 search verbose 3 loop_graph). reflexivity.
Defined.

Lemma dominance_total_witness :
  is_Some (graph_algo_impl_dominance 0 silent search 3 loop_graph 1 ∅) ∧
  is_Some (graph_algo_impl_dominance 0 silent search 4 stray_graph 1 ∅).
Proof.
  split.
  - apply (dominance_total 0 search silent loop_graph 1 3);
      [by apply (bool_decide_unpack _)
      | apply search_dominator_tree_correct; by apply (bool_decide_unpack _)
      | simpl; lia].
  - apply (dominance_total 0 search silent stray_graph 1 4);
      [by apply (bool_decide_unpack _)
      | apply search_dominator_tree_correct; by apply (bool_decide_unpack _)
      | simpl; lia].
Defined.

Lemma dominance_deterministic_witness :
  (dominator_tree 0 silent search diamond 1 ∅).1 =
  (dominator_tree 0 verbose search diamond_shuffled 1 ∅).1 ∧
  ∃ df1 df2,
    fst <$> graph_algo_impl_dominance 0 silent search 4 diamond 1 ∅ = Some df1 ∧
    fst <$> graph_algo_impl_dominance 0 verbose search 7 diamond_shuffled 1 ∅ = Some df2 ∧
    ∀ k m, m ∈ df_at df1 k ↔ m ∈ df_at df2 k.
Proof.
  pose proof (dominance_deterministic 0 search silent verbose diamond diamond_shuffled
                1 4 7) as Hthm.
  destruct Hthm as (Hidom & df1 & df2 & H1 & H2 & Hset & _);
    [by apply (bool_decide_unpack _)
    | by apply (bool_decide_unpack _)
    | by apply (bool_decide_unpack _)
    | apply search_dominator_tree_correct; by apply (bool_decide_unpack _)
    | apply search_dominator_tree_correct; by apply (bool_decide_unpack _)
    | simpl; lia | simpl; lia |].
  split; [exact Hidom |]. exists df1, df2. split; [exact H1 |]. split; [exact H2 |].
  exact Hset.
Defined.

Lemma frontier_has_no_duplicates_witness :
  ∃ df out, graph_algo_impl_dominance 0 silent search 4 diamond 1 ∅ = Some (df, out) ∧
            ∀ k, NoDup (df_at df k).
Proof.
  pose proof (frontier_has_no_duplicates 0 search silent diamond 1) as [Hinv Hrun].
  assert (valid_view 0 diamond 1) as Hvalid by (by apply (bool_decide_unpack _)).
  destruct (Hrun Hvalid (search_dominator_tree_correct 0 diamond 1 Hvalid) 4 (le_n 4))
    as [[df out] Hdf].
  exists df, out. split; [exact Hdf | exact (Hinv 4 df out Hdf)].
Defined.

Lemma frontier_keys_nonempty_witness :
  ∃ df out, graph_algo_impl_dominance 0 silent search 4 diamond 1 ∅ = Some (df, out) ∧
            ∀ k fr, df !! k = Some fr → fr ≠ [].
Proof.
  pose proof (frontier_keys_nonempty 0 search silent diamond 1) as [Hinv Hrun].
  assert (valid_view 0 diamond 1) as Hvalid by (by apply (bool_decide_unpack _)).
  destruct (Hrun Hvalid (search_dominator_tree_correct 0 diamond 1 Hvalid) 4 (le_n 4))
    as [[df out] Hdf].
  exists df, out. split; [exact Hdf | exact (Hinv 4 df out Hdf)].
Defined.

Lemma frontier_characterisation_witness :
  ∃ df out, graph_algo_impl_dominance 0 silent search 3 loop_graph 1 ∅ = Some (df, out) ∧
    ∀ m k, m ≠ k → (∀ p, (p, m) ∈ edges loop_graph → reachable loop_graph 1 p) →
      (m ∈ df_at df k ↔
       ¬ strictly_dominates loop_graph 1 k m ∧
       ∃ p, (p, m) ∈ edges loop_graph ∧ dominates loop_graph 1 k p).
Proof.
  apply (frontier_characterisation 0 search silent loop_graph 1 3);
    [by apply (bool_decide_unpack _)
    | apply search_dominator_tree_correct; by apply (bool_decide_unpack _)
    | simpl; lia].
Defined.

Lemma keys_of_frontier_mapping_witness :
  ∃ df out, graph_algo_impl_dominance 0 silent search 4 diamond 1 ∅ = Some (df, out) ∧
    ∀ k, (is_Some (df !! k) ↔
          ∃ m p, (p, m) ∈ edges diamond ∧ frontier_edge diamond 1 m p k) ∧
         (∀ m, m ∈ df_at df k ↔
               ∃ p, (p, m) ∈ edges diamond ∧ frontier_edge diamond 1 m p k) ∧
         (is_Some (df !! k) ↔ df_at df k ≠ []) ∧
         (is_Some (df !! k) → k ∈ vertices diamond).
Proof.
  apply (keys_of_frontier_mapping 0 search silent diamond 1 4);
    [by apply (bool_decide_unpack _)
    | apply search_dominator_tree_correct; by apply (bool_decide_unpack _)
    | simpl; lia].
Defined.

Lemma self_loop_contributes_nothing_witness :
  (dominator_tree 0 silent search (add_self_loop 1 2 chain) 1 ∅).1 =
    (dominator_tree 0 silent search chain 1 ∅).1 ∧
  ∀ fuel df,
    fst <$> graph_algo_impl_dominance 0 silent search fuel (add_self_loop 1 2 chain) 1 df =
    fst <$> graph_algo_impl_dominance 0 silent search fuel chain 1 df.
Proof.
  pose proof (self_loop_contributes_nothing 0 search chain 1 2 1 silent) as Hthm.
  destruct Hthm as (_ & Hidom & Hdf & _);
    [by apply (bool_decide_unpack _)
    | by apply (bool_decide_unpack _)
    | apply search_dominator_tree_correct; by apply (bool_decide_unpack _)
    | apply search_dominator_tree_correct; by apply (bool_decide_unpack _) |].
  split; [exact Hidom | exact Hdf].
Defined.

(** ** What the loops do whatever the dominator routine computed *)

Section Accumulation.
Context {node : Type} `{Countable node}.
Variable null_vertex : node.
Implicit Types (df : gmap node (list node)) (im : gmap node node).

Lemma push_frontier_extends r n df k :
  df_at df k `prefix_of` df_at (push_frontier r n df) k.
Proof.
  rewrite df_at_push_frontier. case_decide; [| done]. subst.
  case_decide; [done | by apply prefix_app_r].
Qed.

Lemma push_frontier_keeps_key r n df k :
  is_Some (df !! k) → is_Some (push_frontier r n df !! k).
Proof.
  intros Hk. unfold push_frontier. destruct (decide (k = r)) as [-> | Hne].
  - case_decide; by rewrite lookup_insert_eq.
  - case_decide; by rewrite lookup_insert_ne.
Qed.

Lemma push_frontier_present r n df :
  n ∈ df_at df r → push_frontier r n df = df.
Proof.
  intros Hin. unfold push_frontier. rewrite decide_True by done.
  apply insert_id. unfold df_at in *. destruct (df !! r); [done |].
  by apply not_elem_of_nil in Hin.
Qed.

(** The pushes of a walk happen under the guard of the loop. *)
Lemma runner_walk_guarded (P : gmap node (list node) → Prop) fuel im n :
  (∀ r df, r ≠ null_vertex → r ≠ idom_at null_vertex im n → r ≠ n →
           P df → P (push_frontier r n df)) →
  ∀ r df df', runner_walk null_vertex fuel im n r df = Some df' → P df → P df'.
Proof.
  intros Hpush. induction fuel as [|fuel IH]; intros r df df'; simpl.
  - case_decide; [done |]. by intros [= ->].
  - case_decide as Hg; [| by intros [= ->]]. intros Hw Hdf.
    destruct Hg as (? & ? & ?). eapply IH; eauto.
Qed.

Lemma frontier_loops_guarded (P : gmap node (list node) → Prop) fuel g im :
  (∀ r n df, r ≠ null_vertex → r ≠ idom_at null_vertex im n → r ≠ n →
             P df → P (push_frontier r n df)) →
  ∀ df df', frontier_loops null_vertex fuel g im df = Some df' → P df → P df'.
Proof.
  intros Hpush df df'. unfold frontier_loops. apply for_each_preserves.
  intros n s s' _. apply for_each_preserves.
  intros a t t' _. apply runner_walk_guarded. intros r. apply Hpush.
Qed.

Lemma runner_walk_incl fuel im n r df df' :
  runner_walk null_vertex fuel im n r df = Some df' → frontier_incl df df'.
Proof.
  intros Hw k m Hm.
  eapply (runner_walk_preserves null_vertex (λ d, m ∈ df_at d k)); [| done | done].
  intros r' d Hd. apply elem_of_push_frontier. by left.
Qed.

(** A loop whose body only grows the state reaches a property that one
    iteration establishes and the others keep. *)
Lemma for_each_establishes {A S : Type} (Q : S → Prop) (body : A → S → option S) l x :
  (∀ y s s', body y s = Some s' → Q s → Q s') →
  (∀ s s', body x s = Some s' → Q s') →
  x ∈ l → ∀ s s', for_each l body s = Some s' → Q s'.
Proof.
  intros Hkeep Hest. induction l as [|y l IH]; intros Hx s s'; simpl.
  - by apply not_elem_of_nil in Hx.
  - destruct (body y s) as [s1|] eqn:Hy; simpl; [| done]. intros Hl.
    apply elem_of_cons in Hx as [<- | Hx].
    + eapply (for_each_preserves Q); [| done |].
      * intros z t t' _. apply Hkeep.
      * by eapply Hest.
    + by eapply IH.
Qed.

(** A loop whose body has nothing to add to a state leaves it as it is. *)
Lemma for_each_absorbed {A S : Type} (incl : S → S → Prop) (body : A → S → option S) l :
  (∀ s, incl s s) →
  (∀ s1 s2 s3, incl s1 s2 → incl s2 s3 → incl s1 s3) →
  (∀ x s s', body x s = Some s' → incl s s') →
  (∀ x s s' d, body x s = Some s' → incl s' d → body x d = Some d) →
  ∀ s s' d, for_each l body s = Some s' → incl s' d → for_each l body d = Some d.
Proof.
  intros Hrefl Htrans Hmono Habs.
  induction l as [|x l IH]; intros s s' d; simpl; [done |].
  destruct (body x s) as [s1|] eqn:Hx; simpl; [| done]. intros Hl Hd.
  assert (incl s1 s') as H1.
  { eapply (for_each_preserves (incl s1)); [| done | done].
    intros y t t' _ Hy Ht. eapply Htrans; [done | by eapply Hmono]. }
  rewrite (Habs _ _ _ d Hx) by (by eapply Htrans). simpl. by eapply IH.
Qed.

Lemma for_each_incl {A S : Type} (incl : S → S → Prop) (body : A → S → option S) l :
  (∀ s, incl s s) →
  (∀ s1 s2 s3, incl s1 s2 → incl s2 s3 → incl s1 s3) →
  (∀ x s s', body x s = Some s' → incl s s') →
  ∀ s s', for_each l body s = Some s' → incl s s'.
Proof.
  intros Hrefl Htrans Hmono s s' Hl.
  eapply (for_each_preserves (incl s)); [| done | done].
  intros y t t' _ Hy Ht. eapply Htrans; [done | by eapply Hmono].
Qed.

Lemma frontier_incl_refl df : frontier_incl df df.
Proof. by intros k m. Qed.

Lemma frontier_incl_trans df1 df2 df3 :
  frontier_incl df1 df2 → frontier_incl df2 df3 → frontier_incl df1 df3.
Proof. intros H12 H23 k m Hm. by apply H23, H12. Qed.

Lemma runner_walk_absorbed fuel im n :
  ∀ r df df' d,
    runner_walk null_vertex fuel im n r df = Some df' → frontier_incl df' d →
    runner_walk null_vertex fuel im n r d = Some d.
Proof.
  induction fuel as [|fuel IH]; intros r df df' d;
    cbn [runner_walk]; (case_decide; [| done]); [done |].
  intros Hw Hd. rewrite push_frontier_present.
  - by eapply IH.
  - apply Hd. eapply runner_walk_incl; [done |]. apply elem_of_push_frontier. by right.
Qed.

Lemma frontier_loops_incl fuel g im df df' :
  frontier_loops null_vertex fuel g im df = Some df' → frontier_incl df df'.
Proof.
  unfold frontier_loops.
  apply (for_each_incl frontier_incl); [apply frontier_incl_refl
                                       | apply frontier_incl_trans |].
  intros n s s'.
  apply (for_each_incl frontier_incl); [apply frontier_incl_refl
                                       | apply frontier_incl_trans |].
  intros a t t'. apply runner_walk_incl.
Qed.

Lemma frontier_loops_absorbed fuel g im df df' d :
  frontier_loops null_vertex fuel g im df = Some df' → frontier_incl df' d →
  frontier_loops null_vertex fuel g im d = Some d.
Proof.
  unfold frontier_loops.
  apply (for_each_absorbed frontier_incl);
    [apply frontier_incl_refl | apply frontier_incl_trans | |].
  - intros n s s'.
    apply (for_each_incl frontier_incl); [apply frontier_incl_refl
                                         | apply frontier_incl_trans |].
    intros a t t'. apply runner_walk_incl.
  - intros n s s' d'.
    apply (for_each_absorbed frontier_incl);
      [apply frontier_incl_refl | apply frontier_incl_trans | |].
    + intros a t t'. apply runner_walk_incl.
    + intros a t t' d''. apply runner_walk_absorbed.
Qed.

Lemma sublist_snoc_absent (l vs : list node) n :
  l `sublist_of` vs ++ [n] → n ∉ l → l `sublist_of` vs.
Proof.
  intros (l1 & l2 & -> & H1 & H2)%sublist_app_r Hn.
  destruct l2 as [|y l2]; [by rewrite app_nil_r |].
  exfalso. apply Hn. apply elem_of_app. right.
  apply sublist_cons_l in H2 as (k1 & k2 & Heq & _).
  destruct k1 as [|z [|??]]; simplify_eq/=. left.
Qed.

End Accumulation.

Section LoopFacts.
Context {node : Type} `{Countable node}.
Variable null_vertex : node.
Variable log_enabled : string → bool.
Variable lengauer_tarjan_dominator_tree : graph node → node → node → node.

Local Abbreviation lt_tree := lengauer_tarjan_dominator_tree.
Local Abbreviation dom_tree := (dominator_tree null_vertex log_enabled lt_tree).
Local Abbreviation impl := (graph_algo_impl_dominance null_vertex log_enabled lt_tree).
Local Abbreviation loops := (frontier_loops null_vertex).

Implicit Types (g : graph node) (df : gmap node (list node)) (e k m n p : node).

Lemma graph_algo_impl_dominance_loops fuel g e df0 df out :
  impl fuel g e df0 = Some (df, out) →
  loops fuel g (dom_tree g e ∅).1 df0 = Some df.
Proof. intros Hrun. rewrite <- graph_algo_impl_dominance_fst. by rewrite Hrun. Qed.

(** X1. [graph_algo_impl::dominance] does not clear the mapping it is
    given: every vector already there is a prefix of the vector returned
    under the same key, and every key stays. *)
Theorem frontier_vectors_extend fuel g e df0 df out :
  impl fuel g e df0 = Some (df, out) →
  ∀ k, df_at df0 k `prefix_of` df_at df k ∧ (is_Some (df0 !! k) → is_Some (df !! k)).
Proof.
  intros Hl%graph_algo_impl_dominance_loops.
  eapply (frontier_loops_preserves null_vertex
            (λ d, ∀ k, df_at df0 k `prefix_of` df_at d k ∧
                       (is_Some (df0 !! k) → is_Some (d !! k)))); [| done |].
  - intros r n d Hd k. destruct (Hd k) as [Hpre Hkey]. split.
    + etrans; [done | apply push_frontier_extends].
    + intros Hk. by apply push_frontier_keeps_key, Hkey.
  - done.
Qed.

(** X2. Whatever the dominator routine computed, a node that the run adds
    to the vector of [k] is never [k] itself and never a node whose stored
    dominator is [k], and [k] is never the sentinel. *)
Theorem frontier_respects_guard fuel g e df0 df out :
  impl fuel g e df0 = Some (df, out) →
  ∀ k m, m ∈ df_at df k →
    m ∈ df_at df0 k ∨
    (k ≠ null_vertex ∧ k ≠ idom_at null_vertex (dom_tree g e ∅).1 m ∧ k ≠ m).
Proof.
  intros Hl%graph_algo_impl_dominance_loops.
  eapply (frontier_loops_guarded null_vertex
            (λ d, ∀ k m, m ∈ df_at d k →
               m ∈ df_at df0 k ∨
               (k ≠ null_vertex ∧ k ≠ idom_at null_vertex (dom_tree g e ∅).1 m ∧ k ≠ m)));
    [| done |].
  - intros r n d Hr Hi Hn Hd k m [Hm | [-> ->]]%elem_of_push_frontier;
      [by apply Hd | by right].
  - intros k m Hm. by left.
Qed.

(** X3. Whatever the dominator routine computed, a vertex [m] is in the
    returned vector of each of its predecessors other than the sentinel,
    [m] itself and the node stored as the dominator of [m]. *)
Theorem predecessor_frontier fuel g e df0 df out m p :
  impl fuel g e df0 = Some (df, out) →
  m ∈ vertices g → (p, m) ∈ edges g →
  p ≠ null_vertex → p ≠ idom_at null_vertex (dom_tree g e ∅).1 m → p ≠ m →
  m ∈ df_at df p.
Proof.
  intros Hl%graph_algo_impl_dominance_loops Hm Hedge Hp Hi Hpm.
  unfold frontier_loops in Hl.
  eapply (for_each_establishes (λ d, m ∈ df_at d p)); [| | exact Hm | exact Hl].
  - intros n s s' Hn Hs.
    assert (frontier_incl s s') as Hincl; [| by apply Hincl].
    eapply (for_each_incl frontier_incl); [apply frontier_incl_refl
                                          | apply frontier_incl_trans | | exact Hn].
    intros a t t'. apply runner_walk_incl.
  - intros s s'.
    apply (for_each_establishes (λ d, m ∈ df_at d p) _ _ (p, m)).
    + intros a t t' Ha Ht. by eapply runner_walk_incl.
    + intros t t'. rewrite runner_walk_unfold. unfold source. simpl.
      rewrite decide_True by done. destruct fuel as [|fuel']; [done |].
      intros Hw. eapply runner_walk_incl; [done |].
      apply elem_of_push_frontier. by right.
    + unfold in_edges. by apply list_elem_of_filter.
Qed.

Lemma vertices_order_loop fuel g (im : gmap node node) :
  ∀ (vs2 vs1 : list node) df df',
    for_each vs2
      (λ n, for_each (in_edges n g)
              (λ a, runner_walk null_vertex fuel im n (source a))) df = Some df' →
    (∀ k, df_at df k `sublist_of` vs1) →
    ∀ k, df_at df' k `sublist_of` vs1 ++ vs2.
Proof.
  induction vs2 as [|n vs2 IH]; intros vs1 df df'; simpl.
  - intros [= ->] Hdf k. by rewrite app_nil_r.
  - destruct (for_each (in_edges n g) _ df) as [df1|] eqn:Hin; simpl; [| done].
    intros Hl Hdf k. rewrite cons_middle, app_assoc. revert k. eapply IH; [done |].
    eapply (for_each_preserves (λ d, ∀ k, df_at d k `sublist_of` vs1 ++ [n]));
      [| done |].
    + intros a t t' _.
      apply (runner_walk_preserves null_vertex
               (λ d, ∀ k, df_at d k `sublist_of` vs1 ++ [n])).
      intros r d Hd k. rewrite df_at_push_frontier.
      case_decide; [| done]. case_decide as Hn; [done |].
      apply sublist_app; [| done]. by eapply sublist_snoc_absent.
    + intros k. by apply sublist_inserts_r.
Qed.

Lemma frontier_vectors_order_aux fuel g e df out :
  impl fuel g e ∅ = Some (df, out) →
  ∀ k, df_at df k `sublist_of` vertices g.
Proof.
  intros Hl%graph_algo_impl_dominance_loops k.
  apply (vertices_order_loop fuel g _ (vertices g) [] ∅ df Hl).
  intros k'. unfold df_at. by rewrite lookup_empty.
Qed.

(** X4. Each vector returned for an empty mapping lists its nodes in the
    order in which the graph enumerates its vertices. *)
Theorem frontier_vectors_in_vertex_order fuel g e df out :
  impl fuel g e ∅ = Some (df, out) →
  ∀ k, df_at df k `sublist_of` vertices g.
Proof. apply frontier_vectors_order_aux. Qed.

(** X5. A second run has nothing to add: given its own result, or any
    mapping that holds at least the nodes of that result, the run returns
    the mapping unchanged. *)
Theorem dominance_absorbs_its_result fuel g e df0 df out d :
  impl fuel g e df0 = Some (df, out) → frontier_incl df d →
  fst <$> impl fuel g e d = Some d.
Proof.
  intros Hl%graph_algo_impl_dominance_loops Hd.
  rewrite graph_algo_impl_dominance_fst. by eapply frontier_loops_absorbed.
Qed.

End LoopFacts.

(** ** More on the dominator mapping *)

Section DominatorTreeFacts.
Context {node : Type} `{Countable node}.
Variable null_vertex : node.
Variable log_enabled : string → bool.
Variable lengauer_tarjan_dominator_tree : graph node → node → node → node.

Local Abbreviation lt_tree := lengauer_tarjan_dominator_tree.
Local Abbreviation dom_tree := (dominator_tree null_vertex log_enabled lt_tree).

(** X6. [dominator_tree] never overwrites: a key already in the mapping
    keeps its node, every other vertex gets the node of
    [dom_tree_pred_map], and no other key appears. *)
Theorem dominator_tree_keeps_entries (g : graph node) e (idom0 : gmap node node) v :
  (dom_tree g e idom0).1 !! v =
  match idom0 !! v with
  | Some d => Some d
  | None => if decide (v ∈ vertices g) then Some (lt_tree g e v) else None
  end.
Proof.
  rewrite dominator_tree_fst. revert idom0.
  induction (vertices g) as [|x l IH]; intros m; cbn [foldl].
  - destruct (m !! v); [done |]. by rewrite decide_False by apply not_elem_of_nil.
  - rewrite IH, lookup_map_insert. destruct (m !! v) eqn:Hm; [done |].
    destruct (decide (v = x)) as [-> | Hne].
    + by rewrite decide_True by left.
    + destruct (decide (v ∈ l)) as [Hin | Hnin].
      * by rewrite decide_True by (by right).
      * rewrite decide_False; [done |]. by intros [? | ?]%elem_of_cons.
Qed.

(** [dominator_tree] reports every vertex once, in enumeration order,
    whether or not its key was already in the mapping; the report says
    "not dominated" exactly when [dom_tree_pred_map] holds the sentinel. *)
Lemma dominator_tree_reports (g : graph node) e (idom0 : gmap node node) :
  (dom_tree g e idom0).2 =
  vertices g ≫=
    (λ v, CRAB_LOG log_enabled "dominator"
            [dominator_report null_vertex (lt_tree g e v) v]).
Proof.
  unfold dominator_tree.
  match goal with |- context [foldl ?f _ _] => set (step := f) end.
  assert (∀ l im out,
    (foldl step (im, out) l).2 =
    out ++ (l ≫= (λ v, CRAB_LOG log_enabled "dominator"
                         [dominator_report null_vertex (lt_tree g e v) v])))
    as Hfold.
  { induction l as [|v l IH]; intros im out; cbn [foldl].
    - by rewrite app_nil_r.
    - unfold step at 2. rewrite bind_cons. unfold dominator_report at 1.
      case_decide as Hv; by rewrite IH, <- app_assoc. }
  by rewrite Hfold.
Qed.

End DominatorTreeFacts.

(** ** More on the frontiers of a valid view *)

Section FrontierFacts.
Context {node : Type} `{Countable node}.
Variable null_vertex : node.
Variable log_enabled : string → bool.
Variable lengauer_tarjan_dominator_tree : graph node → node → node → node.

Local Abbreviation lt_tree := lengauer_tarjan_dominator_tree.
Local Abbreviation dom_tree := (dominator_tree null_vertex log_enabled lt_tree).
Local Abbreviation impl := (graph_algo_impl_dominance null_vertex log_enabled lt_tree).

Implicit Types (g : graph node) (df : gmap node (list node)) (e k m n p : node).

(** X7. On a valid view the run adds to the mapping it is given: [m] is
    in the returned vector of [k] exactly when it was there before or the
    walk of some edge into [m] passes [k]. *)
Theorem frontier_accumulates g e fuel df0 :
  valid_view null_vertex g e → lt_correct_on null_vertex lt_tree g e →
  length (vertices g) ≤ fuel →
  ∃ df out, impl fuel g e df0 = Some (df, out) ∧
    ∀ k m, m ∈ df_at df k ↔
           m ∈ df_at df0 k ∨ ∃ p, (p, m) ∈ edges g ∧ frontier_edge g e m p k.
Proof.
  intros Hvalid Hlt Hfuel.
  destruct (vertices_loop null_vertex log_enabled lt_tree g e Hvalid Hlt fuel
              (vertices g) Hfuel df0) as (df & Hl & Hdf).
  destruct (graph_algo_impl_dominance_some _ _ _ _ _ _ _ _ Hl) as [out Hout].
  exists df, out. split; [done |]. intros k m. rewrite Hdf. split.
  - intros [? | (_ & ?)]; [by left | by right].
  - intros [? | (p & Hp & Hf)]; [by left | right].
    split; [by apply (edge_vertices null_vertex g e Hvalid p m) | eauto].
Qed.

(** A node other than the entry is dominated by a node that all its
    incoming edges leave. *)
Lemma sole_predecessor_dominates g e m p :
  m ≠ e → (∀ p', (p', m) ∈ edges g → p' = p) → dominates g e p m.
Proof.
  intros Hme Hsole l Hl. inversion Hl as [|l' p' v Hl' Hedge]; subst; [done |].
  rewrite (Hsole _ Hedge) in Hl'. right. by eapply path_end_in.
Qed.

(** X8. A node other than the entry whose incoming edges all leave one
    reachable node is in no frontier. *)
Theorem single_predecessor_in_no_frontier g e fuel :
  valid_view null_vertex g e → lt_correct_on null_vertex lt_tree g e →
  length (vertices g) ≤ fuel →
  ∃ df out, impl fuel g e ∅ = Some (df, out) ∧
    ∀ m p, m ≠ e → reachable g e p → (∀ p', (p', m) ∈ edges g → p' = p) →
           ∀ k, m ∉ df_at df k.
Proof.
  intros Hvalid Hlt Hfuel.
  destruct (graph_algo_impl_dominance_spec null_vertex lt_tree log_enabled g e fuel
              Hvalid Hlt Hfuel) as (df & out & Hout & _ & Hdf).
  exists df, out. split; [done |]. intros m p Hme Hp Hsole k Hm.
  apply Hdf in Hm as (p' & Hedge & Hkm & [(_ & Hd & Hnsd) | (Hnr & _)]).
  - rewrite (Hsole _ Hedge) in Hd. apply Hnsd. split; [| done].
    eapply dominates_trans; [done |]. by apply sole_predecessor_dominates.
  - rewrite (Hsole _ Hedge) in Hnr. done.
Qed.

(** X9. The entry has an empty frontier: the returned mapping has no key
    for it. *)
Theorem entry_has_no_frontier g e fuel :
  valid_view null_vertex g e → lt_correct_on null_vertex lt_tree g e →
  length (vertices g) ≤ fuel →
  ∃ df out, impl fuel g e ∅ = Some (df, out) ∧ df !! e = None.
Proof.
  intros Hvalid Hlt Hfuel.
  destruct (graph_algo_impl_dominance_spec null_vertex lt_tree log_enabled g e fuel
              Hvalid Hlt Hfuel) as (df & out & Hout & Hne & Hdf).
  exists df, out. split; [done |].
  destruct (df !! e) as [[|m fr]|] eqn:Hkey; [by destruct (Hne _ _ Hkey) | | done].
  exfalso. assert (m ∈ df_at df e) as Hm by (unfold df_at; rewrite Hkey; left).
  apply Hdf in Hm as (p & Hedge & Hem & [(Hr & _ & Hnsd) | (Hnr & ->)]).
  - apply Hnsd. split; [apply entry_dominates | done].
  - apply Hnr, reachable_entry.
Qed.

(** X10. The frontier of a node that the entry does not reach holds its
    successors other than itself, and nothing else. *)
Theorem frontier_of_unreachable_node g e fuel :
  valid_view null_vertex g e → lt_correct_on null_vertex lt_tree g e →
  length (vertices g) ≤ fuel →
  ∃ df out, impl fuel g e ∅ = Some (df, out) ∧
    ∀ k m, ¬ reachable g e k → (m ∈ df_at df k ↔ k ≠ m ∧ (k, m) ∈ edges g).
Proof.
  intros Hvalid Hlt Hfuel.
  destruct (graph_algo_impl_dominance_spec null_vertex lt_tree log_enabled g e fuel
              Hvalid Hlt Hfuel) as (df & out & Hout & _ & Hdf).
  exists df, out. split; [done |]. intros k m Hnr. rewrite Hdf. split.
  - intros (p & Hedge & Hkm & [(Hr & Hd & _) | (_ & ->)]); [| done].
    destruct Hnr. by eapply dominator_reachable.
  - intros [Hkm Hedge]. exists k. split; [done |]. split; [done |]. by right.
Qed.

(** X11. When a reachable node [m] other than the entry is in the frontier
    of a reachable node [k], the node stored as the dominator of [m]
    strictly dominates [k]: the frontier of [k] is filled from below the
    immediate dominator of [m] only. *)
Theorem frontier_below_immediate_dominator g e fuel :
  valid_view null_vertex g e → lt_correct_on null_vertex lt_tree g e →
  length (vertices g) ≤ fuel →
  ∃ df out, impl fuel g e ∅ = Some (df, out) ∧
    ∀ k m, m ∈ df_at df k → reachable g e k → m ≠ e →
      strictly_dominates g e (idom_at null_vertex (dom_tree g e ∅).1 m) k.
Proof.
  intros Hvalid Hlt Hfuel. pose proof Hvalid as (He & _ & Hcl).
  destruct (graph_algo_impl_dominance_spec null_vertex lt_tree log_enabled g e fuel
              Hvalid Hlt Hfuel) as (df & out & Hout & _ & Hdf).
  exists df, out. split; [done |]. intros k m Hm Hk Hme.
  apply Hdf in Hm as (p & Hedge & Hkm & [(Hr & Hd & Hnsd) | (Hnr & ->)]);
    [| by destruct Hnr].
  pose proof (reachable_step g e p m Hr Hedge) as Hrm.
  destruct (idom_of_strict null_vertex log_enabled lt_tree g e Hvalid Hlt m Hrm Hme)
    as [Hdm Hdne].
  assert (dominates g e (idom_at null_vertex (dom_tree g e ∅).1 m) p) as Hdp
    by by eapply dominates_pred.
  assert (¬ dominates g e k (idom_at null_vertex (dom_tree g e ∅).1 m)) as Hnk.
  { intros Hkd. apply Hnsd. split; [by eapply dominates_trans | done]. }
  destruct (dominators_comparable g e He Hcl _ k p Hdp Hd Hr) as [Hdk | Hkd]; [| done].
  split; [done |]. intros Heq. apply Hnk. rewrite Heq. apply dominates_refl.
Qed.

End FrontierFacts.

(** ** Post-dominance frontiers in terms of the paths to the exit *)

Section PostDominance.
Context {node : Type} `{Countable node}.
Variable null_vertex : node.
Variable log_enabled : string → bool.
Variable lengauer_tarjan_dominator_tree : graph node → node → node → node.

Local Abbreviation lt_tree := lengauer_tarjan_dominator_tree.

Implicit Types (g : graph node) (k m s u v x : node).

Lemma elem_of_edges_cfg_rev g u v : (u, v) ∈ edges (cfg_rev g) ↔ (v, u) ∈ edges g.
Proof.
  simpl. rewrite list_elem_of_fmap. split.
  - by intros ([a b] & [= -> ->] & Hin).
  - intros Hin. by exists (v, u).
Qed.

(** A path of the reversed view from the exit is a path of the graph to
    the exit, read backwards. *)
Lemma path_to_cfg_rev g x l v : path_to (cfg_rev g) x l v ↔ path_from g x l v.
Proof.
  split.
  - induction 1 as [|l p v Hp IH Hedge]; [constructor |].
    econstructor; [done |]. by apply elem_of_edges_cfg_rev.
  - induction 1 as [|l s v Hp IH Hedge]; [constructor |].
    econstructor; [done |]. by apply elem_of_edges_cfg_rev.
Qed.

Lemma dominates_cfg_rev g x u v :
  dominates (cfg_rev g) x u v ↔ post_dominates g x u v.
Proof.
  unfold dominates, post_dominates.
  split; intros Hd l Hl; apply Hd; by apply path_to_cfg_rev.
Qed.

Lemma valid_view_cfg_rev g x :
  valid_view null_vertex g x → valid_view null_vertex (cfg_rev g) x.
Proof.
  intros (Hx & Hnull & Hcl). split; [done |]. split; [done |].
  unfold edges_closed in *. rewrite Forall_forall in *.
  intros [u v] Hin. apply (elem_of_edges_cfg_rev g u v) in Hin.
  destruct (Hcl _ Hin). by split.
Qed.

(** X12. With an exit that is a vertex, and for a node [m] all of whose
    successors have a path to the exit, [post_dominance] puts [m] in the
    vector of [k] exactly when [m] is not [k], [k] does not strictly
    post-dominate [m] and [k] post-dominates some successor of [m]. *)
Theorem post_dominance_frontier g fuel :
  has_exit g = true → valid_view null_vertex g (exit g) →
  lt_correct_on null_vertex lt_tree (cfg_rev g) (exit g) →
  length (vertices g) ≤ fuel →
  ∃ df, fst <$> post_dominance null_vertex log_enabled lt_tree fuel g ∅ = Some df ∧
    ∀ m k, (∀ s, (m, s) ∈ edges g → ∃ l, path_from g (exit g) l s) →
      (m ∈ df_at df k ↔
       m ≠ k ∧ ¬ strictly_post_dominates g (exit g) k m ∧
       ∃ s, (m, s) ∈ edges g ∧ post_dominates g (exit g) k s).
Proof.
  intros Hex Hvalid Hlt Hfuel.
  destruct (graph_algo_impl_dominance_spec null_vertex lt_tree log_enabled
              (cfg_rev g) (exit g) fuel (valid_view_cfg_rev g _ Hvalid) Hlt Hfuel)
    as (df & out & Hout & _ & Hdf).
  exists df. split; [by rewrite post_dominance_fst, Hout |].
  intros m k Hsucc. rewrite Hdf. unfold frontier_edge, strictly_post_dominates,
    strictly_dominates. split.
  - intros (s & Hs & Hkm & Hcases). apply (elem_of_edges_cfg_rev g) in Hs.
    destruct Hcases as [(Hr & Hd & Hnsd) | (Hnr & _)].
    + split; [congruence |]. split.
      * intros [Hpd ?]. apply Hnsd. split; [| done].
        by apply (proj2 (dominates_cfg_rev g _ _ _)).
      * exists s. split; [done |]. by apply (proj1 (dominates_cfg_rev g _ _ _)).
    + destruct Hnr. destruct (Hsucc _ Hs) as [l Hl]. exists l.
      by apply (proj2 (path_to_cfg_rev g _ _ _)).
  - intros (Hmk & Hnsd & s & Hs & Hd). exists s.
    split; [by apply (proj2 (elem_of_edges_cfg_rev g _ _)) |].
    split; [congruence |]. left. split; [| split].
    + destruct (Hsucc _ Hs) as [l Hl]. exists l.
      by apply (proj2 (path_to_cfg_rev g _ _ _)).
    + by apply (proj2 (dominates_cfg_rev g _ _ _)).
    + intros [Hpd ?]. apply Hnsd. split; [| done].
      by apply (proj1 (dominates_cfg_rev g _ _ _)).
Qed.

End PostDominance.

(** ** The order of the edges does not matter *)

Section EdgeOrder.
Context {node : Type} `{Countable node}.
Variable null_vertex : node.
Variable log_enabled : string → bool.
Variable lengauer_tarjan_dominator_tree : graph node → node → node → node.

Local Abbreviation lt_tree := lengauer_tarjan_dominator_tree.
Local Abbreviation impl := (graph_algo_impl_dominance null_vertex log_enabled lt_tree).

(** Two subsequences of a list without repetition that hold the same
    elements are equal. *)
Lemma sublist_nodup_eq (vs l1 l2 : list node) :
  NoDup vs → l1 `sublist_of` vs → l2 `sublist_of` vs →
  (∀ x, x ∈ l1 ↔ x ∈ l2) → l1 = l2.
Proof.
  intros Hnd. revert l1 l2. induction Hnd as [|v vs Hv Hnd IH]; intros l1 l2 H1 H2 Hmem.
  - apply sublist_nil_r in H1, H2. by subst.
  - assert (∀ l, l `sublist_of` vs → v ∉ l) as Hout.
    { intros l Hl Hin. apply Hv. by eapply elem_of_sublist. }
    apply sublist_cons_r in H1 as [H1 | (l1' & -> & H1)];
      apply sublist_cons_r in H2 as [H2 | (l2' & -> & H2)].
    + by apply IH.
    + exfalso. apply (Hout l1 H1). apply Hmem. left.
    + exfalso. apply (Hout l2 H2). apply Hmem. left.
    + f_equal. apply IH; [done | done |]. intros x. split; intros Hx.
      * assert (x ∈ v :: l2') as [-> | ?]%elem_of_cons by (apply Hmem; by right);
          [by destruct (Hout l1' H1) | done].
      * assert (x ∈ v :: l1') as [-> | ?]%elem_of_cons by (apply Hmem; by right);
          [by destruct (Hout l2' H2) | done].
Qed.

(** X13. Two views that enumerate the same vertices in the same order,
    each once, and the same edges in any order get the same frontier
    mapping, vector for vector. *)
Theorem frontier_mapping_ignores_edge_order (g1 g2 : graph node) e fuel :
  vertices g1 = vertices g2 → NoDup (vertices g1) → edges g1 ≡ₚ edges g2 →
  valid_view null_vertex g1 e →
  lt_correct_on null_vertex lt_tree g1 e → lt_correct_on null_vertex lt_tree g2 e →
  length (vertices g1) ≤ fuel →
  ∃ df, fst <$> impl fuel g1 e ∅ = Some df ∧ fst <$> impl fuel g2 e ∅ = Some df.
Proof.
  intros Hverts Hnd Hedges Hvalid1 Hlt1 Hlt2 Hfuel.
  assert (valid_view null_vertex g2 e) as Hvalid2.
  { destruct Hvalid1 as (He & Hnull & Hcl). split; [by rewrite <- Hverts |].
    split; [by rewrite <- Hverts |]. unfold edges_closed in *.
    rewrite Forall_forall in *. intros a Ha. rewrite <- Hverts. apply Hcl.
    by rewrite Hedges. }
  destruct (graph_algo_impl_dominance_spec null_vertex lt_tree log_enabled g1 e fuel
              Hvalid1 Hlt1 Hfuel) as (df1 & out1 & Hrun1 & Hne1 & Hdf1).
  destruct (graph_algo_impl_dominance_spec null_vertex lt_tree log_enabled g2 e fuel
              Hvalid2 Hlt2) as (df2 & out2 & Hrun2 & Hne2 & Hdf2);
    [by rewrite <- Hverts |].
  exists df1. rewrite Hrun1, Hrun2. split; [done |]. simpl. f_equal.
  assert (∀ k, df_at df2 k = df_at df1 k) as Hat.
  { intros k. apply (sublist_nodup_eq (vertices g1)); [done | | |].
    - rewrite Hverts.
      by apply (frontier_vectors_order_aux null_vertex log_enabled lt_tree fuel g2 e df2 out2).
    - by apply (frontier_vectors_order_aux null_vertex log_enabled lt_tree fuel g1 e df1 out1).
    - intros m. rewrite Hdf1, Hdf2. split; intros (p & Hp & Hfe); exists p.
      + split; [by rewrite Hedges | by apply (frontier_edge_same_edges g1 g2)].
      + split; [by rewrite <- Hedges | by apply (frontier_edge_same_edges g1 g2)]. }
  apply map_eq. intros k. specialize (Hat k). unfold df_at in Hat.
  destruct (df2 !! k) as [fr2|] eqn:H2, (df1 !! k) as [fr1|] eqn:H1; simpl in Hat.
  - by subst.
  - subst. by destruct (Hne2 _ _ H2).
  - subst. by destruct (Hne1 _ _ H1).
  - done.
Qed.

End EdgeOrder.

(** ** The further theorems at concrete graphs *)

Lemma frontier_vectors_extend_witness :
  df_at ({[ 2 := [7] ]} : gmap nat (list nat)) 2
    `prefix_of` df_at {[ 2 := [7; 4]; 3 := [4] ]} 2 ∧
  (is_Some (({[ 2 := [7] ]} : gmap nat (list nat)) !! 2) →
   is_Some (({[ 2 := [7; 4]; 3 := [4] ]} : gmap nat (list nat)) !! 2)).
Proof.
  apply (frontier_vectors_extend 0 silent search 4 diamond 1 {[ 2 := [7] ]}
           {[ 2 := [7; 4]; 3 := [4] ]} []).
  by vm_compute.
Defined.

Lemma frontier_respects_guard_witness :
  4 ∈ df_at (∅ : gmap nat (list nat)) 2 ∨
  (2 ≠ 0 ∧ 2 ≠ idom_at 0 (dominator_tree 0 silent search diamond 1 ∅).1 4 ∧ 2 ≠ 4).
Proof.
  apply (frontier_respects_guard 0 silent search 4 diamond 1 ∅
           {[ 2 := [4]; 3 := [4] ]} []); [by vm_compute |].
  by apply (bool_decide_unpack _).
Defined.

Lemma predecessor_frontier_witness :
  2 ∈ df_at ({[ 4 := [2] ]} : gmap nat (list nat)) 4.
Proof.
  apply (predecessor_frontier 0 silent search 4 stray_graph 1 ∅ {[ 4 := [2] ]} [] 2 4);
    [by vm_compute | by apply (bool_decide_unpack _) | by apply (bool_decide_unpack _)
    | done | by vm_compute | done].
Defined.

Lemma frontier_vectors_in_vertex_order_witness :
  df_at ({[ 2 := [4]; 3 := [4] ]} : gmap nat (list nat)) 2 `sublist_of` vertices diamond.
Proof.
  apply (frontier_vectors_in_vertex_order 0 silent search 4 diamond 1 _ []).
  by vm_compute.
Defined.

Lemma dominance_absorbs_its_result_witness :
  fst <$> graph_algo_impl_dominance 0 silent search 4 diamond 1
            {[ 2 := [4]; 3 := [4] ]} = Some {[ 2 := [4]; 3 := [4] ]}.
Proof.
  apply (dominance_absorbs_its_result 0 silent search 4 diamond 1 ∅
           {[ 2 := [4]; 3 := [4] ]} []); [by vm_compute | by intros k m].
Defined.

Lemma frontier_accumulates_witness :
  ∃ df out,
    graph_algo_impl_dominance 0 silent search 4 diamond 1 {[ 2 := [7] ]} = Some (df, out) ∧
    ∀ k m, m ∈ df_at df k ↔
           m ∈ df_at ({[ 2 := [7] ]} : gmap nat (list nat)) k ∨
           ∃ p, (p, m) ∈ edges diamond ∧ frontier_edge diamond 1 m p k.
Proof.
  apply (frontier_accumulates 0 silent search diamond 1 4 {[ 2 := [7] ]});
    [by apply (bool_decide_unpack _)
    | apply search_dominator_tree_correct; by apply (bool_decide_unpack _)
    | simpl; lia].
Defined.

Lemma single_predecessor_in_no_frontier_witness :
  ∃ df out,
    graph_algo_impl_dominance 0 silent search 3 chain 1 ∅ = Some (df, out) ∧
    ∀ m p, m ≠ 1 → reachable chain 1 p → (∀ p', (p', m) ∈ edges chain → p' = p) →
           ∀ k, m ∉ df_at df k.
Proof.
  apply (single_predecessor_in_no_frontier 0 silent search chain 1 3);
    [by apply (bool_decide_unpack _)
    | apply search_dominator_tree_correct; by apply (bool_decide_unpack _)
    | simpl; lia].
Defined.

Lemma entry_has_no_frontier_witness :
  ∃ df out,
    graph_algo_impl_dominance 0 silent search 3 loop_graph 1 ∅ = Some (df, out) ∧
    df !! 1 = None.
Proof.
  apply (entry_has_no_frontier 0 silent search loop_graph 1 3);
    [by apply (bool_decide_unpack _)
    | apply search_dominator_tree_correct; by apply (bool_decide_unpack _)
    | simpl; lia].
Defined.

Lemma frontier_of_unreachable_node_witness :
  ∃ df out,
    graph_algo_impl_dominance 0 silent search 4 stray_graph 1 ∅ = Some (df, out) ∧
    ∀ k m, ¬ reachable stray_graph 1 k →
           (m ∈ df_at df k ↔ k ≠ m ∧ (k, m) ∈ edges stray_graph).
Proof.
  apply (frontier_of_unreachable_node 0 silent search stray_graph 1 4);
    [by apply (bool_decide_unpack _)
    | apply search_dominator_tree_correct; by apply (bool_decide_unpack _)
    | simpl; lia].
Defined.

Lemma frontier_below_immediate_dominator_witness :
  ∃ df out,
    graph_algo_impl_dominance 0 silent search 4 diamond 1 ∅ = Some (df, out) ∧
    ∀ k m, m ∈ df_at df k → reachable diamond 1 k → m ≠ 1 →
      strictly_dominates diamond 1
        (idom_at 0 (dominator_tree 0 silent search diamond 1 ∅).1 m) k.
Proof.
  apply (frontier_below_immediate_dominator 0 silent search diamond 1 4);
    [by apply (bool_decide_unpack _)
    | apply search_dominator_tree_correct; by apply (bool_decide_unpack _)
    | simpl; lia].
Defined.

Lemma post_dominance_frontier_witness :
  ∃ df, fst <$> post_dominance 0 silent search 4 diamond ∅ = Some df ∧
    ∀ m k, (∀ s, (m, s) ∈ edges diamond → ∃ l, path_from diamond 4 l s) →
      (m ∈ df_at df k ↔
       m ≠ k ∧ ¬ strictly_post_dominates diamond 4 k m ∧
       ∃ s, (m, s) ∈ edges diamond ∧ post_dominates diamond 4 k s).
Proof.
  apply (post_dominance_frontier 0 silent search diamond 4);
    [reflexivity
    | by apply (bool_decide_unpack _)
    | apply search_dominator_tree_correct; by apply (bool_decide_unpack _)
    | simpl; lia].
Defined.

(** The diamond with its edges enumerated in another order. *)
Lemma frontier_mapping_ignores_edge_order_witness :
  ∃ df,
    fst <$> graph_algo_impl_dominance 0 silent search 4 diamond 1 ∅ = Some df ∧
    fst <$> graph_algo_impl_dominance 0 silent search 4
              (Graph [1; 2; 3; 4] [(3, 4); (1, 3); (2, 4); (1, 2)] 1 true 4) 1 ∅ = Some df.
Proof.
  apply (frontier_mapping_ignores_edge_order 0 silent search diamond
           (Graph [1; 2; 3; 4] [(3, 4); (1, 3); (2, 4); (1, 2)] 1 true 4) 1 4);
    [reflexivity
    | by apply (bool_decide_unpack _)
    | by apply (bool_decide_unpack _)
    | by apply (bool_decide_unpack _)
    | apply search_dominator_tree_correct; by apply (bool_decide_unpack _)
    | apply search_dominator_tree_correct; by apply (bool_decide_unpack _)
    | simpl; lia].
Defined.

(** ** Post-dominance is dominance on the reversed view *)

Section ReversedView.
Context {node : Type} `{Countable node}.
Variable null_vertex : node.
Variable log_enabled : string → bool.
Variable lengauer_tarjan_dominator_tree : graph node → node → node → node.

Local Abbreviation lt_tree := lengauer_tarjan_dominator_tree.
Local Abbreviation impl := (graph_algo_impl_dominance null_vertex log_enabled lt_tree).

(** What [post_dominance] returns and sends to the sink, given what the
    loops leave on the reversed view. *)
Lemma post_dominance_output fuel (g : graph node) rdf df :
  has_exit g = true →
  frontier_loops null_vertex fuel (cfg_rev g)
    (dominator_tree null_vertex log_enabled lt_tree (cfg_rev g) (exit g) ∅).1 rdf
  = Some df →
  post_dominance null_vertex log_enabled lt_tree fuel g rdf =
  Some (df,
        CRAB_LOG log_enabled "dominance" [MsgBanner "Post-Dominance Frontiers"] ++
        (dominator_tree null_vertex log_enabled lt_tree (cfg_rev g) (exit g) ∅).2 ++
        CRAB_LOG log_enabled "dominance"
          ((λ kv, MsgFrontier kv.1 kv.2) <$> map_to_list df)).
Proof.
  intros Hex Hl. unfold post_dominance, graph_algo_impl_dominance. rewrite Hex.
  change (entry (cfg_rev g)) with (exit g). simpl.
  destruct (dominator_tree null_vertex log_enabled lt_tree (cfg_rev g) (exit g) ∅)
    as [im out]. simpl in *. by rewrite Hl.
Qed.

(** The mapping that the run leaves on the reversed view, for any mapping
    given. *)
Lemma reversed_view_frontiers fuel (g : graph node) rdf :
  valid_view null_vertex g (exit g) →
  lt_correct_on null_vertex lt_tree (cfg_rev g) (exit g) →
  length (vertices g) ≤ fuel →
  ∃ df,
    frontier_loops null_vertex fuel (cfg_rev g)
      (dominator_tree null_vertex log_enabled lt_tree (cfg_rev g) (exit g) ∅).1 rdf
    = Some df ∧
    ∀ k m, m ∈ df_at df k ↔
           m ∈ df_at rdf k ∨
           ∃ s, (m, s) ∈ edges g ∧ frontier_edge (cfg_rev g) (exit g) m s k.
Proof.
  intros Hvalid Hlt Hfuel.
  pose proof (valid_view_cfg_rev null_vertex g _ Hvalid) as Hvalid'.
  destruct (vertices_loop null_vertex log_enabled lt_tree (cfg_rev g) (exit g)
              Hvalid' Hlt fuel (vertices g) Hfuel rdf) as (df & Hl & Hdf).
  exists df. split; [done |]. intros k m. rewrite Hdf. split.
  - intros [? | (_ & s & Hs & Hfe)]; [by left | right].
    exists s. split; [by apply (proj1 (elem_of_edges_cfg_rev g _ _)) | done].
  - intros [? | (s & Hs & Hfe)]; [by left | right].
    split; [by destruct (edge_vertices null_vertex g (exit g) Hvalid m s Hs) |].
    exists s. split; [by apply (proj2 (elem_of_edges_cfg_rev g _ _)) | done].
Qed.

End ReversedView.

(** A correct routine and the exhaustive search give [dominator_tree] the
    same mapping and the same reports. *)
Lemma dominator_tree_search {node : Type} `{Countable node} (null_vertex : node)
    log_enabled (lt_tree : graph node → node → node → node) g e idom0 :
  valid_view null_vertex g e → lt_correct_on null_vertex lt_tree g e →
  dominator_tree null_vertex log_enabled lt_tree g e idom0 =
  dominator_tree null_vertex log_enabled (search_dominator_tree null_vertex) g e idom0.
Proof.
  intros Hvalid Hlt.
  assert (∀ v, v ∈ vertices g →
            lt_tree g e v = search_dominator_tree null_vertex g e v) as Heq
    by (intros v Hv; by apply lt_correct_search).
  apply injective_projections.
  - rewrite !dominator_tree_fst. revert Heq. generalize idom0.
    induction (vertices g) as [|v l IH]; intros im Heq; cbn [foldl]; [done |].
    rewrite (Heq v) by left. apply IH. intros w Hw. apply Heq. by right.
  - rewrite !dominator_tree_reports. revert Heq.
    induction (vertices g) as [|v l IH]; intros Heq; [done |].
    rewrite !bind_cons, (Heq v) by left. f_equal. apply IH.
    intros w Hw. apply Heq. by right.
Qed.

(** C3. With an exit that is a vertex, [post_dominance] returns a mapping,
    and it is the one that [dominance] returns on the reversed view, whose
    vertices are those of the graph, whose edges are the edges turned
    round and whose entry is the exit: to the mapping it is given it adds
    [m] under [k] exactly when the walk, on the reversed view, of an edge
    from [m] to one of its successors passes [k]. On the diamond with exit
    D the run returns the frontiers B -> {A} and C -> {A}, the dominator
    mapping it builds sends A, B and C to D, and so do its reports. *)
Theorem post_dominance_on_reversed_view :
  (∀ (node : Type) `(Countable node) (null_vertex : node) log_enabled
     (lt_tree : graph node → node → node → node) fuel (g : graph node) rdf,
     has_exit g = true → valid_view null_vertex g (exit g) →
     lt_correct_on null_vertex lt_tree (cfg_rev g) (exit g) →
     length (vertices g) ≤ fuel →
     vertices (cfg_rev g) = vertices g ∧
     (∀ p n, (p, n) ∈ edges (cfg_rev g) ↔ (n, p) ∈ edges g) ∧
     entry (cfg_rev g) = exit g ∧
     ∃ df,
       fst <$> post_dominance null_vertex log_enabled lt_tree fuel g rdf = Some df ∧
       fst <$> dominance null_vertex log_enabled lt_tree fuel (cfg_rev g) rdf = Some df ∧
       ∀ k m, m ∈ df_at df k ↔
              m ∈ df_at rdf k ∨
              ∃ s, (m, s) ∈ edges g ∧ frontier_edge (cfg_rev g) (exit g) m s k) ∧
  (∀ log_enabled (lt_tree : graph nat → nat → nat → nat) fuel,
     lt_correct_on 0 lt_tree (cfg_rev diamond) (exit diamond) → 4 ≤ fuel →
     has_exit diamond = true ∧ exit diamond = 4 ∧
     (dominator_tree 0 log_enabled lt_tree (cfg_rev diamond)
        (entry (cfg_rev diamond)) ∅).1 !! 1 = Some 4 ∧
     (dominator_tree 0 log_enabled lt_tree (cfg_rev diamond)
        (entry (cfg_rev diamond)) ∅).1 !! 2 = Some 4 ∧
     (dominator_tree 0 log_enabled lt_tree (cfg_rev diamond)
        (entry (cfg_rev diamond)) ∅).1 !! 3 = Some 4 ∧
     ∃ out,
       post_dominance 0 log_enabled lt_tree fuel diamond ∅ =
         Some ({[ 2 := [1]; 3 := [1] ]}, out) ∧
       (log_enabled "dominator" = true →
        MsgIdom 4 1 ∈ out ∧ MsgIdom 4 2 ∈ out ∧ MsgIdom 4 3 ∈ out)).
Proof.
  split.
  - intros node ? ? null_vertex log_enabled lt_tree fuel g rdf Hex Hvalid Hlt Hfuel.
    split; [done |]. split; [apply elem_of_edges_cfg_rev |]. split; [done |].
    destruct (reversed_view_frontiers null_vertex log_enabled lt_tree fuel g rdf
                Hvalid Hlt Hfuel) as (df & Hl & Hdf).
    exists df. split; [| split; [| done]].
    + by rewrite post_dominance_fst, graph_algo_impl_dominance_fst.
    + rewrite dominance_fst. change (entry (cfg_rev g)) with (exit g).
      by rewrite graph_algo_impl_dominance_fst.
  - intros log_enabled lt_tree fuel Hlt Hfuel. split; [done |]. split; [done |].
    change (entry (cfg_rev diamond)) with 4. change (exit diamond) with 4 in Hlt.
    rewrite (dominator_tree_search 0 log_enabled lt_tree (cfg_rev diamond) 4 ∅
               diamond_reversed_valid Hlt).
    rewrite !dominator_tree_lookup.
    split; [by vm_compute |]. split; [by vm_compute |]. split; [by vm_compute |].
    eexists. split.
    + rewrite (post_dominance_output 0 log_enabled lt_tree fuel diamond ∅
                 {[ 2 := [1]; 3 := [1] ]} eq_refl); [reflexivity |].
      change (exit diamond) with 4.
      rewrite (dominator_tree_search 0 log_enabled lt_tree (cfg_rev diamond) 4 ∅
                 diamond_reversed_valid Hlt).
      rewrite dominator_tree_fst.
      apply (frontier_loops_more_fuel 0 (cfg_rev diamond) 4); [by vm_compute | done].
    + intros Hlog. change (exit diamond) with 4.
      rewrite (dominator_tree_search 0 log_enabled lt_tree (cfg_rev diamond) 4 ∅
                 diamond_reversed_valid Hlt).
      rewrite dominator_tree_reports, !elem_of_app.
      split; [| split]; right; left; vm_compute; rewrite Hlog; vm_compute;
        repeat (first [by left | right]).
Qed.

Lemma post_dominance_on_reversed_view_witness :
  has_exit diamond = true ∧
  (∃ df,
     fst <$> post_dominance 0 silent search 4 diamond ∅ = Some df ∧
     fst <$> dominance 0 silent search 4 (cfg_rev diamond) ∅ = Some df ∧
     ∀ k m, m ∈ df_at df k ↔
            m ∈ df_at (∅ : gmap nat (list nat)) k ∨
            ∃ s, (m, s) ∈ edges diamond ∧ frontier_edge (cfg_rev diamond) 4 m s k) ∧
  ∃ out,
    post_dominance 0 verbose search 4 diamond ∅ = Some ({[ 2 := [1]; 3 := [1] ]}, out) ∧
    (verbose "dominator" = true →
     MsgIdom 4 1 ∈ out ∧ MsgIdom 4 2 ∈ out ∧ MsgIdom 4 3 ∈ out).
Proof.
  split; [reflexivity |]. split.
  - apply (proj1 post_dominance_on_reversed_view nat _ _ 0 silent search 4 diamond ∅);
      [reflexivity
      | by apply (bool_decide_unpack _)
      | apply search_dominator_tree_correct; by apply (bool_decide_unpack _)
      | simpl; lia].
  - apply (proj2 post_dominance_on_reversed_view verbose search 4);
      [apply search_dominator_tree_correct; by apply (bool_decide_unpack _)
      | lia].
Defined.
